(** * AstroVaultFundraise: a shallow embedding of the campaign ledger

    The contract [AstroVaultFundraise] (Solidity ^0.8.27) keeps one
    fundraising campaign open at a time, folds confidential contributions
    into an encrypted running total and sweeps the pooled balance to the
    campaign owner on finalisation.

    The embedding follows the contract function by function.  A transaction
    is a function from the world state to either an error (a revert, which
    discards every write) or a result with the new state.  The two
    collaborators the contract calls but does not contain, the FHE runtime
    and the ConfidentialUSDT token, are modelled from the specification. *)

From stdpp Require Import base numbers option list gmap strings.
From Stdlib Require Import ZArith Lia.

Local Open Scope N_scope.

(** ** Machine types *)

(** [address] is a 160-bit account identifier, [address(0)] is [0].
    [uint256] values (ids, timestamps) are naturals bounded by [MAX_UINT256];
    [euint64] is an opaque ciphertext handle, [0] being the handle that was
    never initialised. *)
Abbreviation address := N (only parsing).
Abbreviation uint256 := N (only parsing).
Abbreviation euint64 := N (only parsing).

Definition MAX_UINT256 : N := 2 ^ 256 - 1.
Definition TWO64 : Z := (2 ^ 64)%Z.
Definition ADDRESS_ZERO : address := 0.

(** ** Errors *)

(** The five custom errors of the contract, the two failures of the token
    named by the specification, and the arithmetic panic Solidity 0.8 raises
    on a checked overflow. *)
Inductive Error : Type :=
  | ActiveCampaignAlreadyExists
  | CampaignNotFound
  | CampaignClosed
  | UnauthorizedOwner
  | InvalidCampaignConfig
  | ProofInvalid
  | NotAuthorizedOperator
  | PanicOverflow.

Inductive Result (A : Type) : Type :=
  | Ok (a : A)
  | Err (e : Error).
Arguments Ok {A} a.
Arguments Err {A} e.

(** ** The FHE runtime *)

(** Modelled from the spec: the homomorphic operation layer and the access
    control ledger of the FHE runtime ([FHE.sol] is an external library,
    absent from the sources).  Ciphertexts live in an append-only arena; the
    handle [h > 0] names the cell [h - 1], so a handle once issued keeps its
    plaintext and a fresh handle is never the uninitialised one.  Grants form
    a set of (handle, principal) pairs that only grows. *)
Record FheState : Type := mkFhe {
  ciphertexts : list Z;
  grants : gset (N * N)
}.

(** Modelled from the spec: the distinguished uninitialised handle, which
    is not an encrypted zero ([FHE.isInitialized] of the absent library). *)
Definition uninitialized : euint64 := 0.

Definition isInitialized (h : euint64) : bool := negb (h =? 0).

(** Modelled from the spec: [decryptForPrincipal] of the off-core
    decryption service, for a principal that holds a grant.  What is read
    when decrypting [h]; the uninitialised handle holds no ciphertext. *)
Definition decrypt (f : FheState) (h : euint64) : option Z :=
  if isInitialized h then ciphertexts f !! N.to_nat (N.pred h) else None.

(** Modelled from the spec: the operand value arithmetic works on; an
    uninitialised operand counts as an encrypted zero. *)
Definition plain (f : FheState) (h : euint64) : Z := default 0%Z (decrypt f h).

Definition fresh (f : FheState) : euint64 := N.of_nat (S (length (ciphertexts f))).

(** Modelled from the spec: every operation of the absent FHE library
    yields a new handle; [encrypt] stores a 64-bit ciphertext and returns its
    handle. *)
Definition encrypt (v : Z) (f : FheState) : euint64 * FheState :=
  (fresh f, mkFhe (ciphertexts f ++ [(v mod TWO64)%Z]) (grants f)).

(** Modelled from the spec: [encryptConstant] lifts a known plaintext
    ([FHE.asEuint64] of the absent library). *)
Definition encryptConstant (v : Z) (f : FheState) : euint64 * FheState :=
  encrypt v f.

(** Modelled from the spec: [add] yields the ciphertext of the sum of the
    plaintexts modulo 2^64 ([FHE.add] of the absent library). *)
Definition add (a b : euint64) (f : FheState) : euint64 * FheState :=
  encrypt (plain f a + plain f b) f.

(** Modelled from the spec: the subtraction the balance store needs for a
    debit, modulo 2^64 ([FHE.sub] of the absent library). *)
Definition sub (a b : euint64) (f : FheState) : euint64 * FheState :=
  encrypt (plain f a - plain f b) f.

(** Modelled from the spec: [grantPrincipal] and [grantSelf]; granting never
    fails, granting twice is granting once, and nothing is ever revoked
    ([FHE.allow] and [FHE.allowThis] of the absent library). *)
Definition grantPrincipal (h : euint64) (p : address) (f : FheState) : FheState :=
  mkFhe (ciphertexts f) ({[ (h, p) ]} ∪ grants f).

(** Modelled from the spec: an externally supplied ciphertext with its
    proof of well-formedness ([externalEuint64] and [inputProof] of the absent
    library): the plaintext sealed in the blob and whether the proof
    verifies. *)
Record externalEuint64 : Type := mkExternal {
  sealed : Z;
  proofVerifies : bool
}.

(** Modelled from the spec: the input is well formed when its proof
    verifies and the plaintext lies within the declared width. *)
Definition wellFormed (x : externalEuint64) : bool :=
  proofVerifies x && (0 <=? sealed x)%Z && (sealed x <? TWO64)%Z.

(** Modelled from the spec: [ingestExternal] validates the proof and
    yields a fresh handle, failing with [ProofInvalid] otherwise. *)
Definition ingestExternal (x : externalEuint64) (f : FheState)
  : Result (euint64 * FheState) :=
  if wellFormed x then Ok (encrypt (sealed x) f) else Err ProofInvalid.

(** ** The confidential balance store *)

(** Modelled from the spec: the state of the ConfidentialUSDT token
    ([ConfidentialUSDT.sol] is absent from the sources): an encrypted
    balance per account and the time-bounded operator permissions. *)
Record Token : Type := mkToken {
  balances : gmap N N;
  operators : gmap (N * N) N
}.

(** Modelled from the spec: [balanceOf] returns the stored handle, the
    uninitialised one for an account that never transacted. *)
Definition balanceOf (t : Token) (a : address) : euint64 :=
  default uninitialized (balances t !! a).

(** Modelled from the spec: [isAuthorizedOperator], false when the
    permission is absent or expired. *)
Definition isAuthorizedOperator (t : Token) (holder spender : address)
    (now : uint256) : bool :=
  match operators t !! (holder, spender) with
  | Some until => now <=? until
  | None => false
  end.

(** ** The campaign ledger state *)

Record Campaign : Type := mkCampaign {
  owner : address;
  name : string;
  deadline : uint256;
  targetAmount : euint64;
  totalRaised : euint64;
  finalized : bool
}.

(** The value every key of a Solidity mapping holds before it is written. *)
Definition noCampaign : Campaign :=
  mkCampaign ADDRESS_ZERO EmptyString 0 uninitialized uninitialized false.

Inductive Event : Type :=
  | CampaignCreated (campaignId : uint256) (owner : address) (name : string)
      (targetAmount : Z) (deadline : uint256)
  | ContributionReceived (campaignId : uint256) (contributor : address)
      (amount : euint64)
  | CampaignFinalized (campaignId : uint256) (payoutAmount : euint64).

(** The world a transaction runs in: the FHE runtime, the token [cusdt], the
    four storage variables of the contract and the log of emitted events
    (in the order of emission). *)
Record State : Type := mkState {
  fhe : FheState;
  cusdt : Token;
  _campaignCounter : uint256;
  _activeCampaignId : uint256;
  _campaigns : gmap N Campaign;
  _contributions : gmap (N * N) N;
  events : list Event
}.

Definition genesis : State :=
  mkState (mkFhe [] ∅) (mkToken ∅ ∅) 0 0 ∅ ∅ [].

(** [_campaigns[id]] and [_contributions[id][who]] as Solidity reads them. *)
Definition campaignAt (s : State) (id : uint256) : Campaign :=
  default noCampaign (_campaigns s !! id).

Definition contributionAt (s : State) (id : uint256) (who : address) : euint64 :=
  default uninitialized (_contributions s !! (id, who)).

(** ** Transactions *)

Definition Tx (A : Type) : Type := State -> Result (A * State).

Definition ret {A} (a : A) : Tx A := fun s => Ok (a, s).

Definition bind {A B} (m : Tx A) (k : A -> Tx B) : Tx B :=
  fun s => match m s with
           | Ok (a, s') => k a s'
           | Err e => Err e
           end.

Definition revert {A} (e : Error) : Tx A := fun _ => Err e.

Definition gets {A} (proj : State -> A) : Tx A := fun s => Ok (proj s, s).

Definition modify (upd : State -> State) : Tx unit := fun s => Ok (tt, upd s).

Notation "'let!' x ':=' m 'in' k" := (bind m (fun x => k))
  (at level 10, x name, m at level 100, k at level 200).
Notation "m '>>' k" := (bind m (fun _ => k))
  (at level 100, k at level 200, right associativity).

(** Field updates of the world state. *)
Definition withFhe (f : FheState) (s : State) : State :=
  mkState f (cusdt s) (_campaignCounter s) (_activeCampaignId s)
    (_campaigns s) (_contributions s) (events s).

Definition withToken (t : Token) (s : State) : State :=
  mkState (fhe s) t (_campaignCounter s) (_activeCampaignId s)
    (_campaigns s) (_contributions s) (events s).

Definition withCounter (n : uint256) (s : State) : State :=
  mkState (fhe s) (cusdt s) n (_activeCampaignId s)
    (_campaigns s) (_contributions s) (events s).

Definition withActive (id : uint256) (s : State) : State :=
  mkState (fhe s) (cusdt s) (_campaignCounter s) id
    (_campaigns s) (_contributions s) (events s).

Definition withCampaign (id : uint256) (c : Campaign) (s : State) : State :=
  mkState (fhe s) (cusdt s) (_campaignCounter s) (_activeCampaignId s)
    (<[id := c]> (_campaigns s)) (_contributions s) (events s).

Definition withContribution (id : uint256) (who : address) (h : euint64)
    (s : State) : State :=
  mkState (fhe s) (cusdt s) (_campaignCounter s) (_activeCampaignId s)
    (_campaigns s) (<[(id, who) := h]> (_contributions s)) (events s).

Definition emit (e : Event) : Tx unit :=
  modify (fun s =>
    mkState (fhe s) (cusdt s) (_campaignCounter s) (_activeCampaignId s)
      (_campaigns s) (_contributions s) (events s ++ [e])).

(** Writes through a [Campaign storage] pointer. *)
Definition setTotalRaised (id : uint256) (h : euint64) : Tx unit :=
  modify (fun s =>
    let c := campaignAt s id in
    withCampaign id
      (mkCampaign (owner c) (name c) (deadline c) (targetAmount c) h (finalized c)) s).

Definition setFinalized (id : uint256) (b : bool) : Tx unit :=
  modify (fun s =>
    let c := campaignAt s id in
    withCampaign id
      (mkCampaign (owner c) (name c) (deadline c) (targetAmount c) (totalRaised c) b) s).

(** The FHE library calls, run against the runtime of the world. *)
Definition liftFhe (op : FheState -> euint64 * FheState) : Tx euint64 :=
  fun s => let '(h, f) := op (fhe s) in Ok (h, withFhe f s).

Definition FHE_asEuint64 (v : Z) : Tx euint64 := liftFhe (encryptConstant v).

Definition FHE_add (a b : euint64) : Tx euint64 := liftFhe (add a b).

Definition FHE_sub (a b : euint64) : Tx euint64 := liftFhe (sub a b).

Definition FHE_allow (h : euint64) (p : address) : Tx unit :=
  modify (fun s => withFhe (grantPrincipal h p (fhe s)) s).

(** ** The deployed system *)

Section Deployment.

(** [this] is the address the fundraising contract is deployed at (its
    pooled account in the token).  [clamp available requested] is the
    token's rule for the amount a transfer really moves. *)
Variable this : address.
Variable clamp : Z -> Z -> Z.

(** Modelled from the spec: [ingestExternal] run against the runtime of the
    world, the only way an external ciphertext enters ([FHE.fromExternal] of
    the absent library). *)
Definition FHE_fromExternal (x : externalEuint64) : Tx euint64 :=
  fun s => match ingestExternal x (fhe s) with
           | Ok (h, f) => Ok (h, withFhe f s)
           | Err e => Err e
           end.

(** *** ConfidentialUSDT *)

(** Modelled from the spec: updating a balance replaces the stored handle. *)
Definition setBalance (a : address) (h : euint64) : Tx unit :=
  modify (fun s =>
    withToken (mkToken (<[a := h]> (balances (cusdt s))) (operators (cusdt s))) s).

(** Modelled from the spec: the effective amount of a transfer, the
    requested amount clamped by the token's rule, computed on ciphertexts. *)
Definition clamped (available requested : euint64) : Tx euint64 :=
  liftFhe (fun f => encrypt (clamp (plain f available) (plain f requested)) f).

(** Modelled from the spec: the transfer primitive of ConfidentialUSDT
    (absent from the sources).  It debits [from] and credits [to] by the
    effective amount and returns that amount; the holders may decrypt their
    new balances and both parties the amount. *)
Definition transfer (from to : address) (amount : euint64) : Tx euint64 :=
  let! fromBalance := gets (fun s => balanceOf (cusdt s) from) in
  let! transferred := clamped fromBalance amount in
  let! debited := FHE_sub fromBalance transferred in
  setBalance from debited >>
  FHE_allow debited from >>
  let! toBalance := gets (fun s => balanceOf (cusdt s) to) in
  let! credited := FHE_add toBalance transferred in
  setBalance to credited >>
  FHE_allow credited to >>
  FHE_allow transferred from >>
  FHE_allow transferred to >>
  ret transferred.

(** Modelled from the spec: [confidentialBalanceOf], the stored handle of
    an account, the uninitialised one if it never transacted. *)
Definition confidentialBalanceOf (a : address) : Tx euint64 :=
  gets (fun s => balanceOf (cusdt s) a).

(** Modelled from the spec: [confidentialTransfer] moves the caller's own
    funds. *)
Definition confidentialTransfer (caller to : address) (amount : euint64)
  : Tx euint64 :=
  let! transferred := transfer caller to amount in
  FHE_allow transferred caller >>
  ret transferred.

(** Modelled from the spec: [confidentialTransferFrom] ingests the external
    ciphertext, checks that [caller] is an operator of [from] at [now] and
    transfers. *)
Definition confidentialTransferFrom (caller from to : address)
    (encryptedAmount : externalEuint64) (now : uint256) : Tx euint64 :=
  let! amount := FHE_fromExternal encryptedAmount in
  let! authorized := gets (fun s => isAuthorizedOperator (cusdt s) from caller now) in
  if authorized : bool then
    let! transferred := transfer from to amount in
    FHE_allow transferred caller >>
    ret transferred
  else revert NotAuthorizedOperator.

(** Modelled from the spec: confidential mint, as the tests and tasks call
    it ([cusdt.mint(to, amount)]). *)
Definition mint (to : address) (amount : Z) : Tx unit :=
  let! minted := FHE_asEuint64 amount in
  let! toBalance := gets (fun s => balanceOf (cusdt s) to) in
  let! credited := FHE_add toBalance minted in
  setBalance to credited >>
  FHE_allow credited to.

(** Modelled from the spec: the holder grants [operator] the right to move
    its funds up to the time [until] ([cusdt.setOperator(operator, until)]). *)
Definition setOperator (holder operator : address) (until : uint256) : Tx unit :=
  modify (fun s =>
    withToken (mkToken (balances (cusdt s))
                       (<[(holder, operator) := until]> (operators (cusdt s)))) s).

(** *** AstroVaultFundraise *)

Definition FHE_allowThis (h : euint64) : Tx unit := FHE_allow h this.

(** [_initialized]: the value itself, or a fresh encrypted zero for the
    uninitialised handle. *)
Definition _initialized (value : euint64) : Tx euint64 :=
  if isInitialized value then ret value else FHE_asEuint64 0.

(** [activeCampaignId()]. *)
Definition activeCampaignId (s : State) : Result uint256 :=
  Ok (_activeCampaignId s).

(** [getCampaign(campaignId)]. *)
Definition getCampaign (campaignId : uint256) (s : State) : Result Campaign :=
  let campaign := campaignAt s campaignId in
  if owner campaign =? ADDRESS_ZERO then Err CampaignNotFound
  else Ok campaign.

(** [getContribution(campaignId, contributor)]. *)
Definition getContribution (campaignId : uint256) (contributor : address)
    (s : State) : Result euint64 :=
  Ok (contributionAt s campaignId contributor).

(** [createCampaign(name, targetAmount, deadline)], called by [msg_sender]
    in a block stamped [block_timestamp]. *)
Definition createCampaign (msg_sender : address) (block_timestamp : uint256)
    (name : string) (targetAmount : Z) (deadline : uint256) : Tx unit :=
  let! active := gets _activeCampaignId in
  if negb (active =? 0) then revert ActiveCampaignAlreadyExists else
  if (String.length name =? 0)%nat || (targetAmount =? 0)%Z
     || (deadline <=? block_timestamp)
  then revert InvalidCampaignConfig else
  let! counter := gets _campaignCounter in
  if MAX_UINT256 <? counter + 1 then revert PanicOverflow else
  modify (withCounter (counter + 1)) >>
  let! newCampaignId := gets _campaignCounter in
  let! target := FHE_asEuint64 targetAmount in
  let! total := FHE_asEuint64 0 in
  FHE_allowThis target >>
  FHE_allow target msg_sender >>
  FHE_allowThis total >>
  FHE_allow total msg_sender >>
  modify (withCampaign newCampaignId
            (mkCampaign msg_sender name deadline target total false)) >>
  modify (withActive newCampaignId) >>
  emit (CampaignCreated newCampaignId msg_sender name targetAmount deadline).

(** [contribute(encryptedAmount, inputProof)]. *)
Definition contribute (msg_sender : address) (block_timestamp : uint256)
    (encryptedAmount : externalEuint64) : Tx euint64 :=
  let! campaignId := gets _activeCampaignId in
  if campaignId =? 0 then revert CampaignNotFound else
  let! campaign := gets (fun s => campaignAt s campaignId) in
  if finalized campaign || (deadline campaign <=? block_timestamp)
  then revert CampaignClosed else
  let! transferred :=
    confidentialTransferFrom this msg_sender this encryptedAmount block_timestamp in
  let! before := _initialized (totalRaised campaign) in
  let! updatedTotal := FHE_add before transferred in
  FHE_allowThis updatedTotal >>
  FHE_allow updatedTotal (owner campaign) >>
  FHE_allow updatedTotal msg_sender >>
  setTotalRaised campaignId updatedTotal >>
  let! stored := gets (fun s => contributionAt s campaignId msg_sender) in
  let! previousContribution := _initialized stored in
  let! updatedContribution := FHE_add previousContribution transferred in
  FHE_allowThis updatedContribution >>
  FHE_allow updatedContribution msg_sender >>
  FHE_allow updatedContribution (owner campaign) >>
  modify (withContribution campaignId msg_sender updatedContribution) >>
  FHE_allow transferred (owner campaign) >>
  FHE_allow transferred msg_sender >>
  emit (ContributionReceived campaignId msg_sender transferred) >>
  ret updatedContribution.

(** [finalizeCampaign()].  The block time is part of every call but this
    function never reads it. *)
Definition finalizeCampaign (msg_sender : address) (block_timestamp : uint256)
  : Tx euint64 :=
  let! campaignId := gets _activeCampaignId in
  if campaignId =? 0 then revert CampaignNotFound else
  let! campaign := gets (fun s => campaignAt s campaignId) in
  if negb (owner campaign =? msg_sender) then revert UnauthorizedOwner else
  if finalized campaign then revert CampaignClosed else
  let! balance := confidentialBalanceOf this in
  FHE_allowThis balance >>
  FHE_allow balance (owner campaign) >>
  let! payout := confidentialTransfer this (owner campaign) balance in
  FHE_allowThis payout >>
  FHE_allow payout (owner campaign) >>
  setFinalized campaignId true >>
  modify (withActive 0) >>
  emit (CampaignFinalized campaignId payout) >>
  ret payout.

(** *** Calls and reachable states *)

(** What an external account can submit: the three mutating entry points of
    the contract and the token operations of the tests and tasks. *)
Inductive Call : Type :=
  | CreateCampaign (name : string) (targetAmount : Z) (deadline : uint256)
  | Contribute (encryptedAmount : externalEuint64)
  | FinalizeCampaign
  | Mint (to : address) (amount : Z)
  | SetOperator (operator : address) (until : uint256)
  | TokenTransfer (to : address) (encryptedAmount : externalEuint64).

Definition exec (msg_sender : address) (block_timestamp : uint256) (c : Call)
  : Tx unit :=
  match c with
  | CreateCampaign name targetAmount deadline =>
      createCampaign msg_sender block_timestamp name targetAmount deadline
  | Contribute x => contribute msg_sender block_timestamp x >> ret tt
  | FinalizeCampaign => finalizeCampaign msg_sender block_timestamp >> ret tt
  | Mint to amount => mint to amount
  | SetOperator operator until => setOperator msg_sender operator until
  | TokenTransfer to x =>
      let! amount := FHE_fromExternal x in
      confidentialTransfer msg_sender to amount >> ret tt
  end.

(** A reverted call leaves the world as it was. *)
Definition step (msg_sender : address) (block_timestamp : uint256) (c : Call)
    (s : State) : State :=
  match exec msg_sender block_timestamp c s with
  | Ok (_, s') => s'
  | Err _ => s
  end.

(** A schedule of calls, each with its caller and block time. *)
Definition run (calls : list (address * uint256 * Call)) (s : State) : State :=
  foldl (fun st '(who, now, c) => step who now c st) s calls.

(** The states the deployed system can be in: those a finite sequence of
    calls leads to from the state at deployment.  The caller of a call is an
    external account: neither [address(0)] nor the contract itself. *)
Inductive reachable : State -> Prop :=
  | reachable_genesis : reachable genesis
  | reachable_step s msg_sender block_timestamp c :
      reachable s ->
      msg_sender <> ADDRESS_ZERO ->
      msg_sender <> this ->
      reachable (step msg_sender block_timestamp c s).

End Deployment.

(** ** A deployment to run the model on *)

(** The rule of an ERC-7984 token: a transfer moves the requested amount
    when the balance covers it and nothing otherwise. *)
Definition wholeOrNothing (available requested : Z) : Z :=
  if (requested <=? available)%Z then requested else 0%Z.

Definition vault : address := 100.
Definition creator : address := 1.
Definition alice : address := 2.
Definition bob : address := 3.

Definition play (calls : list (address * uint256 * Call)) (s : State) : State :=
  run vault wholeOrNothing calls s.

(** The scenario of the test suite: a campaign with target 1000 closing an
    hour after creation; alice is minted 500 and contributes 150 twice. *)
Definition opened : State :=
  play [(creator, 10, CreateCampaign "Deep Space Vault" 1000 3610)] genesis.

Definition funded : State :=
  play [(creator, 11, Mint alice 500);
        (alice, 12, SetOperator vault 4000)] opened.

Definition raised : State :=
  play [(alice, 13, Contribute (mkExternal 150 true));
        (alice, 14, Contribute (mkExternal 150 true))] funded.

Definition closed : State :=
  play [(creator, 15, FinalizeCampaign)] raised.

(** A state whose id counter is exhausted. *)
Definition exhausted : State :=
  mkState (mkFhe [] ∅) (mkToken ∅ ∅) MAX_UINT256 0 ∅ ∅ [].

(** ** Accounting read off the event log *)

Definition sumZ (l : list Z) : Z := foldr Z.add 0%Z l.

(** The handles of the amounts transferred into campaign [id], in the
    order the contributions were received. *)
Definition transferTo (id : uint256) (e : Event) : option N :=
  match e with
  | ContributionReceived id' _ h => if id' =? id then Some h else None
  | _ => None
  end.

Definition transferBy (id : uint256) (who : address) (e : Event) : option N :=
  match e with
  | ContributionReceived id' who' h =>
      if (id' =? id) && (who' =? who) then Some h else None
  | _ => None
  end.

(** The effectively transferred amounts of the contributions to campaign
    [id], and of those made by [who]. *)
Definition effectiveAmounts (s : State) (id : uint256) : list Z :=
  plain (fhe s) <$> omap (transferTo id) (events s).

Definition contributedBy (s : State) (id : uint256) (who : address) : list Z :=
  plain (fhe s) <$> omap (transferBy id who) (events s).

(** ** Invariants *)

(** A campaign is open when it is stored and not finalised. *)
Definition isOpen (s : State) (id : uint256) : Prop :=
  exists c, _campaigns s !! id = Some c /\ finalized c = false.

(** At most one campaign is open, and the active id names it. *)
Definition singleOpen (s : State) : Prop :=
  (_activeCampaignId s = 0 \/ isOpen s (_activeCampaignId s)) /\
  (forall id, isOpen s id -> id <> 0 /\ id = _activeCampaignId s).

(** Ids are handed out from 1 up to the counter; an allocated campaign has
    an owner. *)
Definition allocated (s : State) (id : uint256) : Prop :=
  1 <= id <= _campaignCounter s.

Definition idsAllocated (s : State) : Prop :=
  _campaignCounter s <= MAX_UINT256 /\
  _activeCampaignId s <= _campaignCounter s /\
  (forall id, allocated s id <-> is_Some (_campaigns s !! id)) /\
  (forall id c, _campaigns s !! id = Some c -> owner c <> ADDRESS_ZERO) /\
  (forall id who h, ContributionReceived id who h ∈ events s -> allocated s id).

(** Every ciphertext is a 64-bit value. *)
Definition bounded (f : FheState) : Prop :=
  Forall (fun v => (0 <= v < TWO64)%Z) (ciphertexts f).

(** [h] names a ciphertext of the arena. *)
Definition live (f : FheState) (h : euint64) : Prop := is_Some (decrypt f h).

(** The arena only grows, by 64-bit ciphertexts. *)
Definition grows (f f' : FheState) : Prop :=
  exists cells, ciphertexts f' = ciphertexts f ++ cells /\
                Forall (fun v => (0 <= v < TWO64)%Z) cells.

(** The running total of every campaign and the record of every
    contributor decrypt to the sum of what the log says was transferred. *)
Definition accounted (s : State) : Prop :=
  (forall id who h, ContributionReceived id who h ∈ events s -> live (fhe s) h) /\
  (forall id c, _campaigns s !! id = Some c ->
     decrypt (fhe s) (totalRaised c)
       = Some (sumZ (effectiveAmounts s id) mod TWO64)%Z) /\
  (forall id who,
     match _contributions s !! (id, who) with
     | Some h => omap (transferBy id who) (events s) <> [] /\
                 decrypt (fhe s) h
                   = Some (sumZ (contributedBy s id who) mod TWO64)%Z
     | None => omap (transferBy id who) (events s) = []
     end).

(** The storage of the contract and its log, which the token never touches. *)
Definition sameLedger (s s' : State) : Prop :=
  _campaignCounter s' = _campaignCounter s /\
  _activeCampaignId s' = _activeCampaignId s /\
  _campaigns s' = _campaigns s /\
  _contributions s' = _contributions s /\
  events s' = events s.

(** What a call into the token or the FHE runtime may change. *)
Definition tokenOnly (s s' : State) : Prop :=
  sameLedger s s' /\ grows (fhe s) (fhe s').

(** [h] is safe to compute with: uninitialised, or a ciphertext. *)
Definition settled (f : FheState) (h : euint64) : Prop :=
  isInitialized h = false \/ live f h.

(** Every balance the token stores names a ciphertext. *)
Definition balancesLive (s : State) : Prop :=
  forall a h, balances (cusdt s) !! a = Some h -> live (fhe s) h.

(** What running [m] from [s] yields: a revert whose error satisfies [E],
    or a result and a new state that satisfy [Q]. *)
Definition outcome {A} (m : Tx A) (s : State) (E : Error -> Prop)
    (Q : A -> State -> Prop) : Prop :=
  match m s with
  | Ok (a, s') => Q a s'
  | Err e => E e
  end.

Definition never : Error -> Prop := fun _ => False.

(** What a transfer of the requested plaintext [requested] from [from] to
    [to] did to the token between [s] and [s']: the handle [h] decrypts to
    the effective amount, [from] is debited and [to] credited by it, and every
    other balance and all operator permissions stay. *)
Definition moved (clamp : Z -> Z -> Z) (from to : address) (requested : Z)
    (s : State) (h : euint64) (s' : State) : Prop :=
  operators (cusdt s') = operators (cusdt s) /\
  (forall a, a <> from -> a <> to ->
     balances (cusdt s') !! a = balances (cusdt s) !! a) /\
  (balancesLive s -> balancesLive s') /\
  exists e,
    decrypt (fhe s') h = Some e /\
    (0 <= e < TWO64)%Z /\
    (balancesLive s ->
       e = (clamp (plain (fhe s) (balanceOf (cusdt s) from)) requested mod TWO64)%Z /\
       (from <> to ->
          decrypt (fhe s') (balanceOf (cusdt s') from)
            = Some ((plain (fhe s) (balanceOf (cusdt s) from) - e) mod TWO64)%Z /\
          decrypt (fhe s') (balanceOf (cusdt s') to)
            = Some ((plain (fhe s) (balanceOf (cusdt s) to) + e) mod TWO64)%Z)).

(** The invariants that hold of every reachable state. *)
Definition consistent (s : State) : Prop :=
  bounded (fhe s) /\ balancesLive s /\ idsAllocated s /\ singleOpen s /\
  accounted s.

(** *** What the three entry points do when they succeed *)

(** [createCampaign] may run: no campaign is active, the configuration is
    valid and the counter can still be incremented. *)
Definition canCreate (s : State) (now : uint256) (title : string) (target : Z)
    (closes : uint256) : Prop :=
  _activeCampaignId s = 0 /\
  title <> EmptyString /\ target <> 0%Z /\ now < closes /\
  _campaignCounter s < MAX_UINT256.

Definition created (sender : address) (title : string) (target : Z)
    (closes : uint256) (s s' : State) : Prop :=
  let id := _campaignCounter s + 1 in
  cusdt s' = cusdt s /\
  grows (fhe s) (fhe s') /\
  _campaignCounter s' = id /\
  _activeCampaignId s' = id /\
  (exists goal total,
     _campaigns s' = <[id := mkCampaign sender title closes goal total false]>
                       (_campaigns s) /\
     decrypt (fhe s') goal = Some (target mod TWO64)%Z /\
     decrypt (fhe s') total = Some 0%Z) /\
  _contributions s' = _contributions s /\
  events s' = events s ++ [CampaignCreated id sender title target closes].

(** [contribute] may run: the active campaign is open at [now], the input
    is well formed and the contract is an operator of the caller. *)
Definition canContribute (this sender : address) (now : uint256)
    (x : externalEuint64) (s : State) : Prop :=
  let c := campaignAt s (_activeCampaignId s) in
  _activeCampaignId s <> 0 /\
  finalized c = false /\ now < deadline c /\
  wellFormed x = true /\
  isAuthorizedOperator (cusdt s) sender this now = true.

Definition contributed (clamp : Z -> Z -> Z) (this sender : address)
    (x : externalEuint64) (s : State) (h : euint64) (s' : State) : Prop :=
  let id := _activeCampaignId s in
  let c := campaignAt s id in
  exists transferred updatedTotal e,
    _campaignCounter s' = _campaignCounter s /\
    _activeCampaignId s' = id /\
    _campaigns s' =
      <[id := mkCampaign (owner c) (name c) (deadline c) (targetAmount c)
                updatedTotal (finalized c)]> (_campaigns s) /\
    _contributions s' = <[(id, sender) := h]> (_contributions s) /\
    events s' = events s ++ [ContributionReceived id sender transferred] /\
    grows (fhe s) (fhe s') /\
    moved clamp sender this (sealed x) s transferred s' /\
    decrypt (fhe s') transferred = Some e /\
    (0 <= e < TWO64)%Z /\
    (settled (fhe s) (totalRaised c) ->
       decrypt (fhe s') updatedTotal
         = Some ((plain (fhe s) (totalRaised c) + e) mod TWO64)%Z) /\
    (settled (fhe s) (contributionAt s id sender) ->
       decrypt (fhe s') h
         = Some ((plain (fhe s) (contributionAt s id sender) + e) mod TWO64)%Z).

(** [finalizeCampaign] may run: a campaign is active, the caller owns it and
    it is not finalised.  No condition on the time. *)
Definition canFinalize (sender : address) (s : State) : Prop :=
  let c := campaignAt s (_activeCampaignId s) in
  _activeCampaignId s <> 0 /\ owner c = sender /\ finalized c = false.

Definition swept (clamp : Z -> Z -> Z) (this : address) (s : State)
    (payout : euint64) (s' : State) : Prop :=
  let id := _activeCampaignId s in
  let c := campaignAt s id in
  _campaignCounter s' = _campaignCounter s /\
  _activeCampaignId s' = 0 /\
  _campaigns s' =
    <[id := mkCampaign (owner c) (name c) (deadline c) (targetAmount c)
              (totalRaised c) true]> (_campaigns s) /\
  _contributions s' = _contributions s /\
  events s' = events s ++ [CampaignFinalized id payout] /\
  grows (fhe s) (fhe s') /\
  (balancesLive s ->
   moved clamp this (owner c) (plain (fhe s) (balanceOf (cusdt s) this)) s payout s').

(** ** Further read-outs of the log, the storage and the grants *)

(** The id a CampaignCreated event announces, and the one a
    CampaignFinalized event closes. *)
Definition createdId (e : Event) : option N :=
  match e with
  | CampaignCreated id _ _ _ _ => Some id
  | _ => None
  end.

Definition finalizedId (e : Event) : option N :=
  match e with
  | CampaignFinalized id _ => Some id
  | _ => None
  end.

(** The ids 1, 2, ..., [n]. *)
Definition idsUpTo (n : uint256) : list N := N.of_nat <$> seq 1 (N.to_nat n).

(** The fields of a campaign that are written once, at creation. *)
Definition sameMetadata (c c' : Campaign) : Prop :=
  owner c' = owner c /\ name c' = name c /\ deadline c' = deadline c /\
  targetAmount c' = targetAmount c.

(** [p] holds a grant on the handle [h]. *)
Definition mayDecrypt (s : State) (h : euint64) (p : address) : Prop :=
  (h, p) ∈ grants (fhe s).

(** The grants the contract hands out on what it stores: the contract and
    the owner on the target and the running total of every campaign; the
    contract, the contributor and the owner on every contribution record. *)
Definition granted (this : address) (s : State) : Prop :=
  (forall id c, _campaigns s !! id = Some c ->
     mayDecrypt s (targetAmount c) this /\
     mayDecrypt s (targetAmount c) (owner c) /\
     mayDecrypt s (totalRaised c) this /\
     mayDecrypt s (totalRaised c) (owner c)) /\
  (forall id who h, _contributions s !! (id, who) = Some h ->
     mayDecrypt s h this /\ mayDecrypt s h who /\
     mayDecrypt s h (owner (campaignAt s id))).

(** A transaction that never takes a grant away. *)
Definition keepsGrants {A} (m : Tx A) : Prop :=
  forall s a s', m s = Ok (a, s') -> grants (fhe s) ⊆ grants (fhe s').

(** The sum of the records of the contributors [whos] to campaign [id]. *)
Definition recordsSum (s : State) (id : uint256) (whos : list N) : Z :=
  sumZ ((fun who => plain (fhe s) (contributionAt s id who)) <$> whos).

(** The second scenario of the test suite: alice contributes 120 and bob
    80 to the same campaign. *)
Definition shared : State :=
  play [(creator, 11, Mint alice 400);
        (creator, 11, Mint bob 250);
        (alice, 12, SetOperator vault 4000);
        (bob, 12, SetOperator vault 4000);
        (alice, 13, Contribute (mkExternal 120 true));
        (bob, 14, Contribute (mkExternal 80 true))] opened.

(** The campaign opened after the test scenario has been finalised. *)
Definition reopened : State :=
  play [(bob, 20, CreateCampaign "Second" 50 5000)] closed.

(** ** The FHE runtime: basic facts *)

Lemma TWO64_pos : (0 < TWO64)%Z.
Proof. reflexivity. Qed.

Lemma fresh_isInitialized f : isInitialized (fresh f) = true.
Proof.
  unfold isInitialized, fresh.
  by destruct (N.eqb_spec (N.of_nat (S (length (ciphertexts f)))) 0); [lia|].
Qed.

Lemma decrypt_encrypt v f :
  decrypt (encrypt v f).2 (encrypt v f).1 = Some (v mod TWO64)%Z.
Proof.
  unfold decrypt, encrypt; cbn [fst snd ciphertexts].
  rewrite fresh_isInitialized. unfold fresh.
  replace (N.to_nat (N.pred (N.of_nat (S (length (ciphertexts f))))))
    with (length (ciphertexts f) + 0)%nat by lia.
  by rewrite lookup_app_r, Nat.add_comm, Nat.add_sub by lia.
Qed.

Lemma grows_refl f : grows f f.
Proof. exists []. by rewrite app_nil_r. Qed.

Lemma grows_trans f1 f2 f3 : grows f1 f2 -> grows f2 f3 -> grows f1 f3.
Proof.
  intros (c1 & E1 & B1) (c2 & E2 & B2). exists (c1 ++ c2). split.
  - by rewrite E2, E1, app_assoc.
  - by apply Forall_app.
Qed.

Lemma grows_encrypt v f : grows f (encrypt v f).2.
Proof.
  exists [(v mod TWO64)%Z]. split; [done|].
  apply Forall_singleton, Z.mod_pos_bound, TWO64_pos.
Qed.

Lemma grows_grant h p f : grows f (grantPrincipal h p f).
Proof. exists []. by rewrite app_nil_r. Qed.

Lemma grows_prefix f f' : grows f f' -> ciphertexts f `prefix_of` ciphertexts f'.
Proof. intros (c & E & _). rewrite E. by apply prefix_app_r. Qed.

Lemma grows_bounded f f' : grows f f' -> bounded f -> bounded f'.
Proof. intros (c & E & B) Hb. unfold bounded. rewrite E. by apply Forall_app. Qed.

Lemma decrypt_grows f f' h v :
  grows f f' -> decrypt f h = Some v -> decrypt f' h = Some v.
Proof.
  intros Hp%grows_prefix. unfold decrypt. destruct (isInitialized h); [|done].
  intros Hl. by eapply prefix_lookup_Some.
Qed.

Lemma live_grows f f' h : grows f f' -> live f h -> live f' h.
Proof. intros Hg [v Hv]. exists v. by eapply decrypt_grows. Qed.

Lemma plain_grows f f' h : grows f f' -> live f h -> plain f' h = plain f h.
Proof.
  intros Hg [v Hv]. unfold plain. by rewrite Hv, (decrypt_grows _ _ _ _ Hg Hv).
Qed.

Lemma plain_decrypt f h v : decrypt f h = Some v -> plain f h = v.
Proof. unfold plain. by intros ->. Qed.

Lemma live_initialized f h : live f h -> isInitialized h = true.
Proof. unfold live, decrypt. destruct (isInitialized h); [done|]. by intros [? ?]. Qed.

Lemma plain_not_initialized f h : isInitialized h = false -> plain f h = 0%Z.
Proof. unfold plain, decrypt. by intros ->. Qed.



(** ** Rules for transactions *)

Lemma outcome_ret {A} (a : A) s E Q : Q a s -> outcome (ret a) s E Q.
Proof. done. Qed.

Lemma outcome_revert {A} e s E (Q : A -> State -> Prop) :
  E e -> outcome (revert e) s E Q.
Proof. done. Qed.

Lemma outcome_bind {A B} (m : Tx A) (k : A -> Tx B) s E Q :
  outcome m s E (fun a s1 => outcome (k a) s1 E Q) -> outcome (bind m k) s E Q.
Proof. unfold outcome at 1 3. unfold bind. by destruct (m s) as [[a s1]|e]. Qed.

Lemma outcome_gets {A} (proj : State -> A) s E Q :
  Q (proj s) s -> outcome (gets proj) s E Q.
Proof. done. Qed.

Lemma outcome_modify upd s E Q : Q tt (upd s) -> outcome (modify upd) s E Q.
Proof. done. Qed.

Lemma outcome_weaken {A} (m : Tx A) s (E E' : Error -> Prop)
    (Q Q' : A -> State -> Prop) :
  outcome m s E Q ->
  (forall e, E e -> E' e) ->
  (forall a s', Q a s' -> Q' a s') ->
  outcome m s E' Q'.
Proof. unfold outcome. destruct (m s) as [[a s1]|e]; auto. Qed.

Lemma outcome_ok {A} (m : Tx A) s E Q a s' :
  outcome m s E Q -> m s = Ok (a, s') -> Q a s'.
Proof. unfold outcome. intros H Hm. by rewrite Hm in H. Qed.

Lemma outcome_err {A} (m : Tx A) s E (Q : A -> State -> Prop) e :
  outcome m s E Q -> m s = Err e -> E e.
Proof. unfold outcome. intros H Hm. by rewrite Hm in H. Qed.

Lemma outcome_never {A} (m : Tx A) s (Q : A -> State -> Prop) :
  outcome m s never Q -> exists a s', m s = Ok (a, s') /\ Q a s'.
Proof. unfold outcome. destruct (m s) as [[a s1]|e]; [eauto | done]. Qed.

(** A homomorphic operation returns a handle of the grown arena that
    decrypts to the 64-bit result. *)
Lemma outcome_liftFhe (g : FheState -> Z) s E Q :
  (forall h f', grows (fhe s) f' ->
                decrypt f' h = Some (g (fhe s) mod TWO64)%Z ->
                Q h (withFhe f' s)) ->
  outcome (liftFhe (fun f => encrypt (g f) f)) s E Q.
Proof.
  intros HQ. unfold outcome, liftFhe.
  apply HQ; [apply grows_encrypt | apply decrypt_encrypt].
Qed.

Lemma outcome_asEuint64 v s E Q :
  (forall h f', grows (fhe s) f' -> decrypt f' h = Some (v mod TWO64)%Z ->
                Q h (withFhe f' s)) ->
  outcome (FHE_asEuint64 v) s E Q.
Proof. apply (outcome_liftFhe (fun _ => v)). Qed.

Lemma outcome_add a b s E Q :
  (forall h f', grows (fhe s) f' ->
     decrypt f' h = Some ((plain (fhe s) a + plain (fhe s) b) mod TWO64)%Z ->
     Q h (withFhe f' s)) ->
  outcome (FHE_add a b) s E Q.
Proof. apply (outcome_liftFhe (fun f => (plain f a + plain f b)%Z)). Qed.

Lemma outcome_sub a b s E Q :
  (forall h f', grows (fhe s) f' ->
     decrypt f' h = Some ((plain (fhe s) a - plain (fhe s) b) mod TWO64)%Z ->
     Q h (withFhe f' s)) ->
  outcome (FHE_sub a b) s E Q.
Proof. apply (outcome_liftFhe (fun f => (plain f a - plain f b)%Z)). Qed.

Lemma outcome_allow h p s E Q :
  (forall f', grows (fhe s) f' -> Q tt (withFhe f' s)) ->
  outcome (FHE_allow h p) s E Q.
Proof. intros HQ. apply outcome_modify, HQ, grows_grant. Qed.

(** ** The token: what a transfer does *)

Section TokenFacts.

Variable this : address.
Variable clamp : Z -> Z -> Z.

Lemma tokenOnly_refl s : tokenOnly s s.
Proof. repeat split; apply grows_refl. Qed.

Lemma tokenOnly_trans s1 s2 s3 : tokenOnly s1 s2 -> tokenOnly s2 s3 -> tokenOnly s1 s3.
Proof.
  intros [(A1 & A2 & A3 & A4 & A5) G1] [(B1 & B2 & B3 & B4 & B5) G2].
  split; [repeat split; congruence | by eapply grows_trans].
Qed.

Lemma outcome_clamped available requested s E Q :
  (forall h f', grows (fhe s) f' ->
     decrypt f' h
       = Some (clamp (plain (fhe s) available) (plain (fhe s) requested) mod TWO64)%Z ->
     Q h (withFhe f' s)) ->
  outcome (clamped clamp available requested) s E Q.
Proof.
  apply (outcome_liftFhe (fun f => clamp (plain f available) (plain f requested))).
Qed.

Lemma balanceOf_insert_eq a h b o : balanceOf (mkToken (<[a := h]> b) o) a = h.
Proof. unfold balanceOf; cbn. by rewrite lookup_insert_eq. Qed.

Lemma balanceOf_insert_ne a a' h b o o' :
  a <> a' -> balanceOf (mkToken (<[a := h]> b) o) a' = balanceOf (mkToken b o') a'.
Proof. intros Hne. unfold balanceOf; cbn. by rewrite lookup_insert_ne. Qed.

Lemma balanceOf_eta t a : balanceOf (mkToken (balances t) (operators t)) a = balanceOf t a.
Proof. reflexivity. Qed.

(** A balance handle read from the token is uninitialised or live. *)
Lemma balanceOf_settled s a :
  balancesLive s -> settled (fhe s) (balanceOf (cusdt s) a).
Proof.
  intros Hl. unfold balanceOf. destruct (balances (cusdt s) !! a) eqn:E; cbn.
  - right. by eapply Hl.
  - by left.
Qed.

Lemma plain_settled f f' h :
  grows f f' -> settled f h -> plain f' h = plain f h.
Proof.
  intros Hg [Hu | Hl]; [|by apply plain_grows].
  by rewrite !plain_not_initialized.
Qed.

Lemma outcome_transfer from to amount s :
  outcome (transfer clamp from to amount) s never (fun h s' =>
    tokenOnly s s' /\
    (balancesLive s -> balancesLive s') /\
    live (fhe s') h /\
    moved clamp from to (plain (fhe s) amount) s h s').
Proof.
  unfold transfer.
  apply outcome_bind, outcome_gets.
  apply outcome_bind, outcome_clamped. intros ht f1 G1 D1. cbn beta.
  apply outcome_bind, outcome_sub. intros hd f2 G2 D2. cbn in G2, D2.
  apply outcome_bind, outcome_modify.
  apply outcome_bind, outcome_allow. intros f3 G3. cbn in G3.
  apply outcome_bind, outcome_gets.
  apply outcome_bind, outcome_add. intros hc f4 G4 D4. cbn in G4, D4.
  apply outcome_bind, outcome_modify.
  apply outcome_bind, outcome_allow. intros f5 G5. cbn in G5.
  apply outcome_bind, outcome_allow. intros f6 G6. cbn in G6.
  apply outcome_bind, outcome_allow. intros f7 G7. cbn in G7.
  apply outcome_ret.
  assert (G12 : grows (fhe s) f2) by eauto using grows_trans.
  assert (G13 : grows (fhe s) f3) by eauto using grows_trans.
  assert (G14 : grows (fhe s) f4) by eauto using grows_trans.
  assert (G47 : grows f4 f7) by eauto using grows_trans.
  assert (G27 : grows f2 f7) by eauto 6 using grows_trans.
  assert (G17 : grows f1 f7) by eauto using grows_trans.
  assert (G07 : grows (fhe s) f7) by eauto using grows_trans.
  assert (Hlive : balancesLive s -> balancesLive
    (withFhe f7 (withFhe f6 (withFhe f5 (withToken
       {| balances := <[to:=hc]> (<[from:=hd]> (balances (cusdt s)));
          operators := operators (cusdt s) |}
       (withFhe f4 (withFhe f3 (withToken
          {| balances := <[from:=hd]> (balances (cusdt s));
             operators := operators (cusdt s) |}
          (withFhe f2 (withFhe f1 s)))))))))).
  { intros Hl a h; cbn. rewrite lookup_insert. case_decide as E1.
    - intros [= <-]. eexists. eapply decrypt_grows; [exact G47|exact D4].
    - rewrite lookup_insert. case_decide as E2.
      + intros [= <-]. eexists. eapply decrypt_grows; [exact G27|exact D2].
      + intros Hb. eapply live_grows; [exact G07|]. by eapply Hl. }
  split; [by repeat split|]. split; [exact Hlive|]. split.
  { eexists. eapply decrypt_grows; [exact G17|exact D1]. }
  unfold moved; cbn.
  split; [done|]. split.
  { intros a Ha1 Ha2. by rewrite lookup_insert_ne, lookup_insert_ne. }
  split; [exact Hlive|].
  eexists. split; [eapply decrypt_grows; [exact G17|exact D1]|]. split.
  { apply Z.mod_pos_bound, TWO64_pos. }
  intros Hl. split; [done|].
  intros Hne.
  rewrite (balanceOf_insert_ne to from _ _ _ (operators (cusdt s))) by done.
  rewrite balanceOf_insert_eq, balanceOf_insert_eq.
  rewrite (balanceOf_insert_ne from to _ _ _ (operators (cusdt s))) in D4 by done.
  rewrite balanceOf_eta in D4.
  split.
  - erewrite decrypt_grows; [|exact G27|exact D2]. f_equal. f_equal. f_equal.
    + by apply plain_settled, balanceOf_settled.
    + by apply plain_decrypt.
  - erewrite decrypt_grows; [|exact G47|exact D4]. f_equal. f_equal. f_equal.
    + by apply plain_settled, balanceOf_settled.
    + apply plain_decrypt. eapply decrypt_grows; [|exact D1]. eauto using grows_trans.
Qed.

Lemma balancesLive_grows s s' :
  cusdt s' = cusdt s -> grows (fhe s) (fhe s') -> balancesLive s -> balancesLive s'.
Proof.
  intros Ht Hg Hl a h. rewrite Ht. intros Hb. eapply live_grows; [exact Hg|].
  by eapply Hl.
Qed.

(** A transfer seen from an earlier state with the same balances, and from
    a later one with a larger arena. *)
Lemma moved_earlier from to r s s0 h s' :
  cusdt s0 = cusdt s -> grows (fhe s) (fhe s0) ->
  moved clamp from to r s0 h s' -> moved clamp from to r s h s'.
Proof.
  intros Ht Hg (Hop & Hoth & Hl & e & De & Be & Hbal). unfold moved.
  rewrite <- Ht. split; [done|]. split; [done|].
  assert (Hl0 : balancesLive s -> balancesLive s0) by by apply balancesLive_grows.
  split; [auto|]. exists e. split; [done|]. split; [done|].
  intros Hls. destruct (Hbal (Hl0 Hls)) as [He Hmv].
  assert (Hp : forall a, plain (fhe s0) (balanceOf (cusdt s0) a)
                         = plain (fhe s) (balanceOf (cusdt s0) a)).
  { intros a. apply plain_settled; [done|]. rewrite Ht. by apply balanceOf_settled. }
  rewrite <- !Hp. done.
Qed.

Lemma moved_later from to r s h s1 s' :
  cusdt s' = cusdt s1 -> grows (fhe s1) (fhe s') ->
  moved clamp from to r s h s1 -> moved clamp from to r s h s'.
Proof.
  intros Ht Hg (Hop & Hoth & Hl & e & De & Be & Hbal). unfold moved.
  rewrite Ht. split; [done|]. split; [done|]. split.
  { intros Hls. eapply balancesLive_grows; [exact Ht|exact Hg|auto]. }
  exists e. split; [by eapply decrypt_grows|]. split; [done|].
  intros Hls. destruct (Hbal Hls) as [He Hmv]. split; [done|].
  intros Hne. destruct (Hmv Hne) as [H1 H2].
  split; by eapply decrypt_grows.
Qed.

Lemma tokenOnly_withFhe s f' : grows (fhe s) f' -> tokenOnly s (withFhe f' s).
Proof. intros Hg. by repeat split. Qed.

Lemma outcome_confidentialTransfer caller to amount s :
  outcome (confidentialTransfer clamp caller to amount) s never (fun h s' =>
    tokenOnly s s' /\
    (balancesLive s -> balancesLive s') /\
    live (fhe s') h /\
    moved clamp caller to (plain (fhe s) amount) s h s').
Proof.
  unfold confidentialTransfer.
  apply outcome_bind.
  eapply outcome_weaken; [apply outcome_transfer | done |].
  intros h s1 (Htok & Hl & Hh & Hmv). cbn beta.
  apply outcome_bind, outcome_allow. intros f2 G2.
  apply outcome_ret.
  split; [eapply tokenOnly_trans; [exact Htok | by apply tokenOnly_withFhe]|].
  split; [intros Hls; eapply balancesLive_grows; [| exact G2 | auto]; done|].
  split; [by eapply live_grows|].
  by eapply moved_later; [| | exact Hmv].
Qed.

Lemma outcome_fromExternal x s (E : Error -> Prop) Q :
  (wellFormed x = false -> E ProofInvalid) ->
  (wellFormed x = true ->
   forall h f', grows (fhe s) f' -> decrypt f' h = Some (sealed x) ->
                Q h (withFhe f' s)) ->
  outcome (FHE_fromExternal x) s E Q.
Proof.
  intros HE HQ. unfold outcome, FHE_fromExternal, ingestExternal.
  destruct (wellFormed x) eqn:Hwf; [|auto].
  pose proof (grows_encrypt (sealed x) (fhe s)) as G.
  pose proof (decrypt_encrypt (sealed x) (fhe s)) as D.
  rewrite Z.mod_small in D.
  - unfold encrypt in *. cbn in *. by apply HQ.
  - unfold wellFormed in Hwf. apply andb_prop in Hwf as [Hwf H3].
    apply andb_prop in Hwf as [_ H2]. lia.
Qed.

(** Pulling an external amount: the two ways it can fail, and what a
    successful pull did. *)
Lemma outcome_confidentialTransferFrom caller from to x now s :
  outcome (confidentialTransferFrom clamp caller from to x now) s
    (fun e =>
       e = ProofInvalid /\ wellFormed x = false \/
       e = NotAuthorizedOperator /\ wellFormed x = true /\
         isAuthorizedOperator (cusdt s) from caller now = false)
    (fun h s' =>
       wellFormed x = true /\
       isAuthorizedOperator (cusdt s) from caller now = true /\
       tokenOnly s s' /\
       (balancesLive s -> balancesLive s') /\
       live (fhe s') h /\
       moved clamp from to (sealed x) s h s').
Proof.
  unfold confidentialTransferFrom.
  apply outcome_bind, outcome_fromExternal; [by left|].
  intros Hwf h0 f0 G0 D0.
  apply outcome_bind, outcome_gets. cbn.
  destruct (isAuthorizedOperator (cusdt s) from caller now) eqn:Hop;
    [|apply outcome_revert; by right].
  apply outcome_bind.
  eapply outcome_weaken; [apply outcome_transfer | done |].
  intros h s1 (Htok & Hl & Hh & Hmv). cbn beta.
  apply outcome_bind, outcome_allow. intros f2 G2.
  apply outcome_ret. cbn in Htok, Hl, Hmv.
  split; [done|]. split; [done|]. split.
  { eapply tokenOnly_trans; [by apply (tokenOnly_withFhe s f0)|].
    eapply tokenOnly_trans; [exact Htok | by apply tokenOnly_withFhe]. }
  split.
  { intros Hls. eapply balancesLive_grows; [| exact G2 |]; [done|].
    apply Hl. by eapply balancesLive_grows; [| exact G0 |]. }
  split; [by eapply live_grows|].
  eapply moved_later; [| exact G2 |]; [done|].
  eapply (moved_earlier _ _ _ s (withFhe f0 s)); [done | done |].
  by rewrite (plain_decrypt _ _ _ D0) in Hmv.
Qed.

Lemma outcome_mint to amount s :
  outcome (mint to amount) s never (fun _ s' =>
    tokenOnly s s' /\ (balancesLive s -> balancesLive s')).
Proof.
  unfold mint.
  apply outcome_bind, outcome_asEuint64. intros hm f1 G1 D1.
  apply outcome_bind, outcome_gets.
  apply outcome_bind, outcome_add. intros hc f2 G2 D2. cbn in G2.
  apply outcome_bind, outcome_modify.
  apply outcome_allow. intros f3 G3. cbn in G3.
  split; [repeat split; cbn; eauto using grows_trans|].
  intros Hls a h; cbn. rewrite lookup_insert. case_decide as Ea.
  - intros [= <-]. eexists. eapply decrypt_grows; [exact G3|exact D2].
  - intros Hb. eapply live_grows; [|by eapply Hls]. eauto using grows_trans.
Qed.

Lemma outcome_setOperator holder operator until s :
  outcome (setOperator holder operator until) s never (fun _ s' =>
    tokenOnly s s' /\ (balancesLive s -> balancesLive s')).
Proof.
  apply outcome_modify. split; [repeat split; apply grows_refl|].
  intros Hls a h; cbn. apply Hls.
Qed.

End TokenFacts.

(** ** The contract: what each entry point does *)

Section ContractFacts.

Variable this : address.
Variable clamp : Z -> Z -> Z.

Lemma withFhe_same s : withFhe (fhe s) s = s.
Proof. by destruct s. Qed.

Lemma outcome_initialized value s E Q :
  (forall h f', grows (fhe s) f' ->
     (forall f'', grows f' f'' -> settled (fhe s) value ->
                  live f'' h /\ plain f'' h = plain (fhe s) value) ->
     Q h (withFhe f' s)) ->
  outcome (_initialized value) s E Q.
Proof.
  intros HQ. unfold _initialized. destruct (isInitialized value) eqn:Hi.
  - apply outcome_ret. rewrite <- (withFhe_same s). apply HQ; [apply grows_refl|].
    intros f'' G [Hu | Hl]; [congruence|].
    split; [by eapply live_grows | by apply plain_grows].
  - apply outcome_asEuint64. intros h f' G D. apply HQ; [done|].
    intros f'' G' _. split; [eexists; by eapply decrypt_grows|].
    rewrite (plain_not_initialized _ _ Hi).
    apply plain_decrypt. by eapply decrypt_grows.
Qed.

Lemma string_length_zero (t : string) : (String.length t =? 0)%nat = true <-> t = EmptyString.
Proof. destruct t; cbn; split; congruence. Qed.

Lemma outcome_createCampaign sender now title target closes s :
  outcome (createCampaign this sender now title target closes) s
    (fun e =>
       e = ActiveCampaignAlreadyExists /\ _activeCampaignId s <> 0 \/
       e = InvalidCampaignConfig /\ _activeCampaignId s = 0 /\
         (title = EmptyString \/ target = 0%Z \/ closes <= now) \/
       e = PanicOverflow /\ _activeCampaignId s = 0 /\
         title <> EmptyString /\ target <> 0%Z /\ now < closes /\
         MAX_UINT256 <= _campaignCounter s)
    (fun _ s' => canCreate s now title target closes /\
                 created sender title target closes s s').
Proof.
  unfold createCampaign.
  apply outcome_bind, outcome_gets. cbn beta.
  destruct (N.eqb_spec (_activeCampaignId s) 0) as [Ha|Ha]; cbn [negb];
    [|apply outcome_revert; by left].
  destruct (String.length title =? 0)%nat eqn:Ht; cbn [orb].
  { apply outcome_revert. right; left. apply string_length_zero in Ht. auto. }
  destruct (Z.eqb_spec target 0) as [Hg|Hg]; cbn [orb].
  { apply outcome_revert. right; left. auto. }
  destruct (N.leb_spec closes now) as [Hd|Hd].
  { apply outcome_revert. right; left. auto. }
  assert (Ht' : title <> EmptyString).
  { intros Hx. apply string_length_zero in Hx. congruence. }
  apply outcome_bind, outcome_gets. cbn beta.
  destruct (N.ltb_spec MAX_UINT256 (_campaignCounter s + 1)) as [Ho|Ho].
  { apply outcome_revert. right; right. repeat split; try done. lia. }
  apply outcome_bind, outcome_modify.
  apply outcome_bind, outcome_gets.
  apply outcome_bind, outcome_asEuint64. intros hg f1 G1 D1. cbn in G1.
  apply outcome_bind, outcome_asEuint64. intros ht f2 G2 D2. cbn in G2.
  apply outcome_bind, outcome_allow. intros f3 G3. cbn in G3.
  apply outcome_bind, outcome_allow. intros f4 G4. cbn in G4.
  apply outcome_bind, outcome_allow. intros f5 G5. cbn in G5.
  apply outcome_bind, outcome_allow. intros f6 G6. cbn in G6.
  apply outcome_bind, outcome_modify.
  apply outcome_bind, outcome_modify.
  apply outcome_modify.
  assert (G26 : grows f2 f6) by eauto using grows_trans.
  assert (G16 : grows f1 f6) by eauto using grows_trans.
  split; [unfold canCreate; repeat split; try done; lia|].
  unfold created; cbn.
  split; [done|]. split; [eauto using grows_trans|].
  split; [done|]. split; [done|]. split; [|done].
  exists hg, ht. split; [done|].
  split; [eapply decrypt_grows; [exact G16|exact D1]|].
  eapply decrypt_grows; [exact G26|exact D2].
Qed.

Lemma outcome_contribute sender now x s :
  let c := campaignAt s (_activeCampaignId s) in
  outcome (contribute this clamp sender now x) s
    (fun e =>
       e = CampaignNotFound /\ _activeCampaignId s = 0 \/
       e = CampaignClosed /\ _activeCampaignId s <> 0 /\
         (finalized c = true \/ deadline c <= now) \/
       e = ProofInvalid /\ _activeCampaignId s <> 0 /\
         finalized c = false /\ now < deadline c /\ wellFormed x = false \/
       e = NotAuthorizedOperator /\ _activeCampaignId s <> 0 /\
         finalized c = false /\ now < deadline c /\ wellFormed x = true /\
         isAuthorizedOperator (cusdt s) sender this now = false)
    (fun h s' => canContribute this sender now x s /\
                 contributed clamp this sender x s h s').
Proof.
  intros c. unfold contribute.
  apply outcome_bind, outcome_gets. cbn beta.
  destruct (N.eqb_spec (_activeCampaignId s) 0) as [Ha|Ha];
    [apply outcome_revert; by left|].
  apply outcome_bind, outcome_gets. cbn beta. fold c.
  destruct (finalized c) eqn:Hf; cbn [orb].
  { apply outcome_revert. right; left. auto. }
  destruct (N.leb_spec (deadline c) now) as [Hd|Hd].
  { apply outcome_revert. right; left. auto. }
  apply outcome_bind.
  eapply outcome_weaken; [apply outcome_confidentialTransferFrom | |].
  { intros e [[-> Hwf] | (-> & Hwf & Hop)]; [right; right; left | right; right; right];
      by repeat split. }
  intros ht s1 (Hwf & Hop & [(L1 & L2 & L3 & L4 & L5) G1] & Hl1 & Hht & Hmv). cbn beta.
  apply outcome_bind, outcome_initialized. intros hb f2 G2 Hb. cbn beta.
  apply outcome_bind, outcome_add. intros hu f3 G3 D3. cbn in G3, D3.
  apply outcome_bind, outcome_allow. intros f4 G4. cbn in G4.
  apply outcome_bind, outcome_allow. intros f5 G5. cbn in G5.
  apply outcome_bind, outcome_allow. intros f6 G6. cbn in G6.
  apply outcome_bind, outcome_modify.
  apply outcome_bind, outcome_gets.
  apply outcome_bind, outcome_initialized. intros hp f7 G7 Hp. cbn in G7, Hp. cbn beta.
  apply outcome_bind, outcome_add. intros hc f8 G8 D8. cbn in G8, D8.
  apply outcome_bind, outcome_allow. intros f9 G9. cbn in G9.
  apply outcome_bind, outcome_allow. intros f10 G10. cbn in G10.
  apply outcome_bind, outcome_allow. intros f11 G11. cbn in G11.
  apply outcome_bind, outcome_modify.
  apply outcome_bind, outcome_allow. intros f12 G12. cbn in G12.
  apply outcome_bind, outcome_allow. intros f13 G13. cbn in G13.
  apply outcome_bind, outcome_modify.
  apply outcome_ret.
  assert (G36 : grows f3 f6) by eauto using grows_trans.
  assert (G26 : grows f2 f6) by eauto using grows_trans.
  assert (G16 : grows (fhe s1) f6) by eauto using grows_trans.
  assert (G67 : grows f6 f7) by done.
  assert (G8e : grows f8 f13) by eauto 7 using grows_trans.
  assert (G7e : grows f7 f13) by eauto using grows_trans.
  assert (G6e : grows f6 f13) by eauto using grows_trans.
  assert (G3e : grows f3 f13) by eauto using grows_trans.
  assert (G1e : grows (fhe s1) f13) by eauto using grows_trans.
  assert (G0e : grows (fhe s) f13) by eauto using grows_trans.
  assert (G01 : grows (fhe s) (fhe s1)) by done.
  split; [by repeat split|].
  destruct Hht as [e De].
  assert (Be : (0 <= e < TWO64)%Z).
  { destruct Hmv as (_ & _ & _ & e' & De' & Be' & _). congruence. }
  unfold contributed; cbn. exists ht, hu, e.
  rewrite L1, L2. fold c.
  split; [done|]. split; [done|].
  split. { unfold campaignAt; cbn. by rewrite L3. }
  split. { by rewrite L4. }
  split; [by rewrite L5|]. split; [done|].
  split. { by eapply moved_later; [| |exact Hmv]. }
  split; [eapply decrypt_grows; [exact G1e|exact De]|].
  split; [done|]. split.
  - intros Hs. erewrite decrypt_grows; [|exact G3e|exact D3]. f_equal. f_equal.
    f_equal.
    + destruct (Hb f2) as [_ ->]; [apply grows_refl| |].
      * destruct Hs as [Hs|Hs]; [by left | right; by eapply live_grows].
      * by apply plain_settled.
    + apply plain_decrypt. by eapply decrypt_grows.
  - intros Hs. erewrite decrypt_grows; [|exact G8e|exact D8]. f_equal. f_equal.
    unfold contributionAt in Hp; cbn in Hp. rewrite L4 in Hp.
    fold (contributionAt s (_activeCampaignId s) sender) in Hp.
    f_equal.
    + destruct (Hp f7) as [_ ->]; [apply grows_refl| |].
      * destruct Hs as [Hs|Hs]; [by left | right; eapply live_grows; [|exact Hs]].
        eauto using grows_trans.
      * apply plain_settled; [eauto using grows_trans | done].
    + apply plain_decrypt. eapply decrypt_grows; [|exact De].
      eauto using grows_trans.
Qed.

Lemma outcome_finalizeCampaign sender now s :
  let c := campaignAt s (_activeCampaignId s) in
  outcome (finalizeCampaign this clamp sender now) s
    (fun e =>
       e = CampaignNotFound /\ _activeCampaignId s = 0 \/
       e = UnauthorizedOwner /\ _activeCampaignId s <> 0 /\ owner c <> sender \/
       e = CampaignClosed /\ _activeCampaignId s <> 0 /\ owner c = sender /\
         finalized c = true)
    (fun payout s' => canFinalize sender s /\ swept clamp this s payout s').
Proof.
  intros c. unfold finalizeCampaign.
  apply outcome_bind, outcome_gets. cbn beta.
  destruct (N.eqb_spec (_activeCampaignId s) 0) as [Ha|Ha];
    [apply outcome_revert; by left|].
  apply outcome_bind, outcome_gets. cbn beta. fold c.
  destruct (N.eqb_spec (owner c) sender) as [Ho|Ho]; cbn [negb];
    [|apply outcome_revert; right; left; by repeat split].
  destruct (finalized c) eqn:Hf.
  { apply outcome_revert. right; right. by repeat split. }
  apply outcome_bind, outcome_gets.
  apply outcome_bind, outcome_allow. intros f1 G1.
  apply outcome_bind, outcome_allow. intros f2 G2. cbn in G2.
  apply outcome_bind.
  eapply outcome_weaken; [apply outcome_confidentialTransfer | done |].
  intros hp s3 ([(L1 & L2 & L3 & L4 & L5) G3] & Hl3 & Hhp & Hmv). cbn beta.
  cbn in L1, L2, L3, L4, L5, G3, Hmv.
  apply outcome_bind, outcome_allow. intros f4 G4.
  apply outcome_bind, outcome_allow. intros f5 G5. cbn in G5.
  apply outcome_bind, outcome_modify.
  apply outcome_bind, outcome_modify.
  apply outcome_bind, outcome_modify.
  apply outcome_ret.
  assert (G02 : grows (fhe s) f2) by eauto using grows_trans.
  assert (G35 : grows (fhe s3) f5) by eauto using grows_trans.
  split; [by repeat split|].
  unfold swept; cbn. rewrite L1, L4, L5. fold c.
  split; [done|]. split; [done|].
  split. { unfold campaignAt; cbn. by rewrite L3. }
  split; [done|]. split; [done|].
  split. { eauto using grows_trans. }
  intros Hls.
  eapply moved_later; [| exact G35 |]; [done|].
  eapply (moved_earlier _ _ _ _ s (withFhe f2 (withFhe f1 s))); [done | done |].
  replace (plain (fhe s) (balanceOf (cusdt s) this))
    with (plain f2 (balanceOf (cusdt s) this)); [exact Hmv|].
  by apply plain_settled, balanceOf_settled.
Qed.

End ContractFacts.

(** ** Invariants *)

Lemma sumZ_app l l' : sumZ (l ++ l') = (sumZ l + sumZ l')%Z.
Proof. unfold sumZ. induction l as [|x l IH]; cbn; [done|]. rewrite IH. lia. Qed.

Lemma sumZ_Permutation l l' : l ≡ₚ l' -> sumZ l = sumZ l'.
Proof.
  unfold sumZ. induction 1 as [|x l l' _ IH|x y l|l1 l2 l3 _ IH1 _ IH2]; cbn;
    [done | by rewrite IH | lia | congruence].
Qed.

Lemma transferTo_Some id e h :
  transferTo id e = Some h <-> exists who, e = ContributionReceived id who h.
Proof.
  destruct e as [| id' who' h' |]; cbn;
    [split; [done | by intros [? ?]] | | split; [done | by intros [? ?]]].
  destruct (N.eqb_spec id' id) as [->|Hne]; split.
  - intros [= ->]. by exists who'.
  - by intros [who [= -> ->]].
  - done.
  - intros [who [= ? ? ?]]. done.
Qed.

Lemma transferBy_Some id who e h :
  transferBy id who e = Some h <-> e = ContributionReceived id who h.
Proof.
  destruct e as [| id' who' h' |]; cbn; [done| |done].
  destruct (N.eqb_spec id' id) as [->|Hi], (N.eqb_spec who' who) as [->|Hw];
    cbn; split; try done; try (by intros [= ->]); by intros [= ? ? ?].
Qed.

Lemma transferBy_transferTo id who e h :
  transferBy id who e = Some h -> transferTo id e = Some h.
Proof. rewrite transferBy_Some, transferTo_Some. eauto. Qed.

(** Plaintexts of live handles do not change when the arena grows. *)
Lemma amounts_grows f f' (hs : list N) :
  grows f f' -> Forall (live f) hs -> plain f' <$> hs = plain f <$> hs.
Proof.
  intros Hg. induction 1 as [|h hs Hh _ IH]; cbn; [done|].
  by rewrite IH, (plain_grows _ _ _ Hg Hh).
Qed.

Lemma logged_live_to s id :
  (forall i who h, ContributionReceived i who h ∈ events s -> live (fhe s) h) ->
  Forall (live (fhe s)) (omap (transferTo id) (events s)).
Proof.
  intros Hl. apply Forall_forall. intros h Hh.
  apply list_elem_of_omap in Hh as (e & He & Ht).
  apply transferTo_Some in Ht as [who ->]. eauto.
Qed.

Lemma logged_live_by s id who :
  (forall i w h, ContributionReceived i w h ∈ events s -> live (fhe s) h) ->
  Forall (live (fhe s)) (omap (transferBy id who) (events s)).
Proof.
  intros Hl. apply Forall_forall. intros h Hh.
  apply list_elem_of_omap in Hh as (e & He & Ht).
  apply transferBy_Some in Ht as ->. eauto.
Qed.

(** A campaign whose deadline or owner is set is a stored one. *)
Lemma campaignAt_stored_deadline s id :
  deadline (campaignAt s id) <> 0 -> _campaigns s !! id = Some (campaignAt s id).
Proof. unfold campaignAt. by destruct (_campaigns s !! id). Qed.

Lemma campaignAt_stored_owner s id :
  owner (campaignAt s id) <> ADDRESS_ZERO -> _campaigns s !! id = Some (campaignAt s id).
Proof. unfold campaignAt. by destruct (_campaigns s !! id). Qed.

Lemma campaignAt_lookup s id c : _campaigns s !! id = Some c -> campaignAt s id = c.
Proof. unfold campaignAt. by intros ->. Qed.

(** *** At most one open campaign *)

Lemma isOpen_sameLedger s s' id : _campaigns s' = _campaigns s -> isOpen s' id <-> isOpen s id.
Proof. unfold isOpen. by intros ->. Qed.

Lemma singleOpen_tokenOnly s s' : tokenOnly s s' -> singleOpen s -> singleOpen s'.
Proof.
  intros [(_ & Ea & Ec & _ & _) _] [H1 H2]. unfold singleOpen. rewrite Ea. split.
  - destruct H1 as [?|?]; [by left | right; by apply (isOpen_sameLedger s s')].
  - intros id Hid. apply H2. by apply (isOpen_sameLedger s s').
Qed.

Lemma singleOpen_created sender title target closes s s' :
  _activeCampaignId s = 0 ->
  created sender title target closes s s' -> singleOpen s -> singleOpen s'.
Proof.
  intros Ha (_ & _ & Ec & Ea' & (g & t & Em & _) & _) [_ H2].
  assert (Hopen : isOpen s' (_campaignCounter s + 1)).
  { eexists. rewrite Em, lookup_insert_eq. done. }
  unfold singleOpen. rewrite Ea'. split; [by right|].
  intros id (c & Hc & Hf). rewrite Em, lookup_insert in Hc. case_decide as Hid.
  - subst id. split; [lia|done].
  - destruct (H2 id) as [Hn He]; [by exists c|]. congruence.
Qed.

Lemma singleOpen_contributed clamp this sender x s h s' :
  _activeCampaignId s <> 0 ->
  finalized (campaignAt s (_activeCampaignId s)) = false ->
  contributed clamp this sender x s h s' -> singleOpen s -> singleOpen s'.
Proof.
  intros Ha Hf (ht & hu & e & _ & Ea' & Em & _) [_ H2].
  assert (Hopen : isOpen s' (_activeCampaignId s)).
  { eexists. rewrite Em, lookup_insert_eq. done. }
  unfold singleOpen. rewrite Ea'. split; [by right|].
  intros id (c & Hc & Hfc). rewrite Em, lookup_insert in Hc. case_decide as Hid.
  - by subst id.
  - apply H2. by exists c.
Qed.

Lemma singleOpen_swept clamp this s payout s' :
  swept clamp this s payout s' -> singleOpen s -> singleOpen s'.
Proof.
  intros (_ & Ea' & Em & _) [_ H2].
  unfold singleOpen. rewrite Ea'. split; [by left|].
  intros id (c & Hc & Hfc). rewrite Em, lookup_insert in Hc. case_decide as Hid.
  - injection Hc as <-. done.
  - destruct (H2 id) as [_ He]; [by exists c|]. congruence.
Qed.

(** *** Allocation of ids *)

Lemma idsAllocated_tokenOnly s s' : tokenOnly s s' -> idsAllocated s -> idsAllocated s'.
Proof.
  intros [(Ec & Ea & Em & _ & Ee) _] (H1 & H2 & H3 & H4 & H5).
  unfold idsAllocated, allocated. rewrite Ec, Ea, Em, Ee. done.
Qed.

Lemma idsAllocated_created sender title target closes s s' :
  sender <> ADDRESS_ZERO ->
  _campaignCounter s < MAX_UINT256 ->
  created sender title target closes s s' -> idsAllocated s -> idsAllocated s'.
Proof.
  intros Hs Hlt (_ & _ & Ec & Ea & (g & t & Em & _) & _ & Ee) (H1 & H2 & H3 & H4 & H5).
  unfold idsAllocated, allocated in *. rewrite Ec, Ea, Em, Ee.
  split; [lia|]. split; [lia|]. split; [|split].
  - intros id. rewrite lookup_insert_is_Some, <- H3. lia.
  - intros id c. rewrite lookup_insert. case_decide; [by intros [= <-] | eauto].
  - intros id who h. rewrite elem_of_app, list_elem_of_singleton.
    intros [Hin | ?]; [|done]. apply H5 in Hin. lia.
Qed.

Lemma idsAllocated_contributed clamp this sender now x s h s' :
  canContribute this sender now x s ->
  contributed clamp this sender x s h s' -> idsAllocated s -> idsAllocated s'.
Proof.
  intros (Ha & Hf & Hd & _) (ht & hu & e & Ec & Ea & Em & _ & Ee & _)
    (H1 & H2 & H3 & H4 & H5).
  assert (Hst : _campaigns s !! _activeCampaignId s
                = Some (campaignAt s (_activeCampaignId s))).
  { apply campaignAt_stored_deadline. lia. }
  unfold idsAllocated, allocated in *. rewrite Ec, Ea, Em, Ee.
  split; [done|]. split; [done|]. split; [|split].
  - intros id. rewrite lookup_insert_is_Some, H3.
    split; [intros ?; destruct (decide (_activeCampaignId s = id)); auto|].
    intros [<- | [_ ?]]; [by rewrite Hst | done].
  - intros id c. rewrite lookup_insert. case_decide; [|eauto].
    intros [= <-]; cbn. eauto.
  - intros id who h'. rewrite elem_of_app, list_elem_of_singleton.
    intros [Hin | [= -> _ _]]; [eauto|]. apply H3. by rewrite Hst.
Qed.

Lemma idsAllocated_swept clamp this sender s payout s' :
  sender <> ADDRESS_ZERO ->
  canFinalize sender s ->
  swept clamp this s payout s' -> idsAllocated s -> idsAllocated s'.
Proof.
  intros Hs (Ha & Ho & Hf) (Ec & Ea & Em & _ & Ee & _) (H1 & H2 & H3 & H4 & H5).
  assert (Hst : _campaigns s !! _activeCampaignId s
                = Some (campaignAt s (_activeCampaignId s))).
  { apply campaignAt_stored_owner. congruence. }
  unfold idsAllocated, allocated in *. rewrite Ec, Ea, Em, Ee.
  split; [done|]. split; [lia|]. split; [|split].
  - intros id. rewrite lookup_insert_is_Some, H3.
    split; [intros ?; destruct (decide (_activeCampaignId s = id)); auto|].
    intros [<- | [_ ?]]; [by rewrite Hst | done].
  - intros id c. rewrite lookup_insert. case_decide; [|eauto].
    intros [= <-]; cbn. eauto.
  - intros id who h'. rewrite elem_of_app, list_elem_of_singleton.
    intros [Hin | ?]; [eauto | done].
Qed.

(** *** The totals and records agree with the log *)

Lemma effectiveAmounts_grows s s' id :
  accounted s -> events s' = events s -> grows (fhe s) (fhe s') ->
  effectiveAmounts s' id = effectiveAmounts s id.
Proof.
  intros (Hl & _) Ee Hg. unfold effectiveAmounts. rewrite Ee.
  by apply amounts_grows, logged_live_to.
Qed.

Lemma contributedBy_grows s s' id who :
  accounted s -> events s' = events s -> grows (fhe s) (fhe s') ->
  contributedBy s' id who = contributedBy s id who.
Proof.
  intros (Hl & _) Ee Hg. unfold contributedBy. rewrite Ee.
  by apply amounts_grows, logged_live_by.
Qed.

(** The log gains an event that is no contribution. *)
Lemma accounted_frame s s' ev :
  (forall id who h, ev <> ContributionReceived id who h) ->
  events s' = events s ++ [ev] ->
  grows (fhe s) (fhe s') ->
  _contributions s' = _contributions s ->
  (forall id c', _campaigns s' !! id = Some c' ->
     (exists c, _campaigns s !! id = Some c /\ totalRaised c' = totalRaised c) \/
     decrypt (fhe s') (totalRaised c') = Some 0%Z /\
       omap (transferTo id) (events s) = []) ->
  accounted s -> accounted s'.
Proof.
  intros Hev Ee Hg Ek Hm Hacc. pose proof Hacc as (Hl & Ht & Hr).
  assert (Hto : forall id, omap (transferTo id) (events s') = omap (transferTo id) (events s)).
  { intros id. rewrite Ee, omap_app; cbn.
    destruct (transferTo id ev) as [h|] eqn:E; [|by rewrite app_nil_r].
    apply transferTo_Some in E as [who ->]. by destruct (Hev id who h). }
  assert (Hby : forall id who,
             omap (transferBy id who) (events s') = omap (transferBy id who) (events s)).
  { intros id who. rewrite Ee, omap_app; cbn.
    destruct (transferBy id who ev) as [h|] eqn:E; [|by rewrite app_nil_r].
    apply transferBy_Some in E as ->. by destruct (Hev id who h). }
  assert (Hea : forall id, effectiveAmounts s' id = effectiveAmounts s id).
  { intros id. unfold effectiveAmounts. rewrite Hto.
    by apply amounts_grows, logged_live_to. }
  assert (Hcb : forall id who, contributedBy s' id who = contributedBy s id who).
  { intros id who. unfold contributedBy. rewrite Hby.
    by apply amounts_grows, logged_live_by. }
  split; [|split].
  - intros id who h. rewrite Ee, elem_of_app, list_elem_of_singleton.
    intros [Hin | Heq]; [|symmetry in Heq; by apply Hev in Heq].
    eapply live_grows; eauto.
  - intros id c' Hc'. rewrite Hea.
    destruct (Hm id c' Hc') as [(c & Hc & ->) | [Hz Hnone]].
    + eapply decrypt_grows; eauto.
    + rewrite Hz. unfold effectiveAmounts. by rewrite Hnone.
  - intros id who. rewrite Ek, Hby, Hcb. specialize (Hr id who).
    destruct (_contributions s !! (id, who)); [|done].
    destruct Hr as [Hne Hd]. split; [done|]. eapply decrypt_grows; eauto.
Qed.

Lemma accounted_tokenOnly s s' : tokenOnly s s' -> accounted s -> accounted s'.
Proof.
  intros [(_ & _ & Em & Ek & Ee) Hg] Hacc. pose proof Hacc as (Hl & Ht & Hr).
  split; [|split].
  - intros id who h. rewrite Ee. intros Hin. eapply live_grows; eauto.
  - intros id c. rewrite Em, (effectiveAmounts_grows s s') by done.
    intros Hc. eapply decrypt_grows; eauto.
  - intros id who. rewrite Ek, Ee, (contributedBy_grows s s') by done.
    specialize (Hr id who). destruct (_contributions s !! (id, who)); [|done].
    destruct Hr as [Hne Hd]. split; [done|]. eapply decrypt_grows; eauto.
Qed.

Lemma accounted_created sender title target closes s s' :
  created sender title target closes s s' -> idsAllocated s -> accounted s ->
  accounted s'.
Proof.
  intros (_ & Hg & _ & _ & (g & t & Em & _ & Dt) & Ek & Ee) (_ & _ & _ & _ & H5).
  eapply accounted_frame; [| exact Ee | exact Hg | exact Ek |]; [done|].
  intros id c'. rewrite Em, lookup_insert. case_decide as Hid.
  - intros [= <-]; cbn. right. split; [done|].
    destruct (omap (transferTo id) (events s)) as [|h hs] eqn:E; [done|].
    assert (Hin : h ∈ omap (transferTo id) (events s)) by (rewrite E; left).
    apply list_elem_of_omap in Hin as (e & He & Hte).
    apply transferTo_Some in Hte as [who ->]. apply H5 in He.
    unfold allocated in He. lia.
  - intros Hc. left. by exists c'.
Qed.

Lemma accounted_swept clamp this s payout s' :
  _campaigns s !! _activeCampaignId s = Some (campaignAt s (_activeCampaignId s)) ->
  swept clamp this s payout s' -> accounted s -> accounted s'.
Proof.
  intros Hst (_ & _ & Em & Ek & Ee & Hg & _).
  eapply accounted_frame; [| exact Ee | exact Hg | exact Ek |]; [done|].
  intros id c'. rewrite Em, lookup_insert. case_decide as Hid.
  - intros [= <-]; cbn. left. subst id. eauto.
  - intros Hc. left. by exists c'.
Qed.

Lemma accounted_contributed clamp this sender now x s h s' :
  canContribute this sender now x s ->
  contributed clamp this sender x s h s' -> accounted s -> accounted s'.
Proof.
  intros (Ha & Hf & Hd & _)
    (ht & hu & e & _ & _ & Em & Ek & Ee & Hg & _ & De & Be & Dtot & Drec) Hacc.
  pose proof Hacc as (Hl & Ht & Hr).
  set (id := _activeCampaignId s) in *.
  assert (Hst : _campaigns s !! id = Some (campaignAt s id)).
  { apply campaignAt_stored_deadline. lia. }
  assert (Hto : forall i, effectiveAmounts s' i
      = effectiveAmounts s i ++ (if i =? id then [e] else [])).
  { intros i. unfold effectiveAmounts. rewrite Ee, omap_app, fmap_app.
    f_equal; [by apply amounts_grows, logged_live_to|]. cbn.
    rewrite (N.eqb_sym id i). destruct (i =? id); cbn; [|done].
    by rewrite (plain_decrypt _ _ _ De). }
  assert (Hby : forall i w, contributedBy s' i w
      = contributedBy s i w ++ (if (i =? id) && (w =? sender) then [e] else [])).
  { intros i w. unfold contributedBy. rewrite Ee, omap_app, fmap_app.
    f_equal; [by apply amounts_grows, logged_live_by|]. cbn.
    rewrite (N.eqb_sym id i), (N.eqb_sym sender w).
    destruct ((i =? id) && (w =? sender)); cbn; [|done].
    by rewrite (plain_decrypt _ _ _ De). }
  split; [|split].
  - intros i w h'. rewrite Ee, elem_of_app, list_elem_of_singleton.
    intros [Hin | [= _ _ ->]]; [eapply live_grows; eauto | by exists e].
  - intros i c'. rewrite Em, lookup_insert, Hto, sumZ_app. case_decide as Hid.
    + intros [= <-]; cbn [totalRaised]. subst i. rewrite N.eqb_refl.
      specialize (Ht id _ Hst).
      rewrite Dtot by (right; by eexists).
      rewrite (plain_decrypt _ _ _ Ht). cbn. f_equal.
      rewrite Z.add_0_r. apply Zplus_mod_idemp_l.
    + intros Hc. destruct (N.eqb_spec i id) as [->|_]; [done|]. cbn.
      rewrite Z.add_0_r. eapply decrypt_grows; eauto.
  - intros i w. rewrite Ek, lookup_insert, Hby, sumZ_app. case_decide as Hid.
    + injection Hid as <- <-. rewrite !N.eqb_refl. cbn [andb].
      split.
      { unfold contributedBy. rewrite Ee, omap_app. cbn.
        rewrite !N.eqb_refl. cbn. by destruct (omap _ (events s)). }
      specialize (Hr id sender). unfold contributionAt in Drec.
      destruct (_contributions s !! (id, sender)) as [hp|] eqn:E; cbn in Drec.
      * destruct Hr as [_ Hd']. rewrite Drec by (right; by eexists).
        rewrite (plain_decrypt _ _ _ Hd'). cbn. f_equal.
        rewrite Z.add_0_r. apply Zplus_mod_idemp_l.
      * rewrite Drec by (by left). unfold contributedBy. rewrite Hr. cbn.
        by rewrite Z.add_0_r.
    + assert (Hb : (i =? id) && (w =? sender) = false).
      { destruct (N.eqb_spec i id), (N.eqb_spec w sender); cbn; congruence. }
      rewrite Hb. cbn. rewrite Z.add_0_r.
      unfold contributedBy at 1. rewrite Ee, omap_app. cbn.
      rewrite (N.eqb_sym id i), (N.eqb_sym sender w), Hb, app_nil_r.
      specialize (Hr i w). destruct (_contributions s !! (i, w)); [|done].
      destruct Hr as [Hne Hd']. split; [done|]. eapply decrypt_grows; eauto.
Qed.

(** *** Every reachable state is consistent *)

Section Reachability.

Variable this : address.
Variable clamp : Z -> Z -> Z.

Lemma discard_result_ok {A} (m : Tx A) s u s' :
  bind m (fun _ => ret tt) s = Ok (u, s') -> exists a, m s = Ok (a, s').
Proof.
  unfold bind, ret. destruct (m s) as [[a s1]|e]; [|done].
  intros [= _ <-]. by exists a.
Qed.

Lemma discard_result_err {A} (m : Tx A) s e :
  bind m (fun _ => ret tt) s = Err e <-> m s = Err e.
Proof. unfold bind, ret. destruct (m s) as [[a s1]|e']; split; congruence. Qed.

Lemma outcome_tokenTransfer sender now to x s :
  outcome (exec this clamp sender now (TokenTransfer to x)) s (fun _ => True)
    (fun _ s' => tokenOnly s s' /\ (balancesLive s -> balancesLive s')).
Proof.
  cbn [exec].
  apply outcome_bind, outcome_fromExternal; [done|].
  intros Hwf h f1 G1 D1.
  apply outcome_bind.
  eapply outcome_weaken; [apply outcome_confidentialTransfer | done |].
  intros h' s2 (Htok & Hl & _). apply outcome_ret. split.
  - eapply tokenOnly_trans; [by apply (tokenOnly_withFhe s f1) | exact Htok].
  - intros Hls. apply Hl. by eapply balancesLive_grows; [| exact G1 |].
Qed.

Lemma consistent_tokenOnly s s' :
  tokenOnly s s' -> (balancesLive s -> balancesLive s') ->
  consistent s -> consistent s'.
Proof.
  intros Htok Hl (Hb & Hbl & Hids & Hso & Hacc).
  pose proof Htok as [_ Hg].
  split; [by eapply grows_bounded|]. split; [auto|].
  split; [by eapply idsAllocated_tokenOnly|].
  split; [by eapply singleOpen_tokenOnly | by eapply accounted_tokenOnly].
Qed.

Lemma consistent_contribute sender now x s h s' :
  consistent s -> contribute this clamp sender now x s = Ok (h, s') ->
  consistent s'.
Proof.
  intros (Hb & Hbl & Hids & Hso & Hacc) Hx.
  pose proof (outcome_ok _ _ _ _ _ _
    (outcome_contribute this clamp sender now x s) Hx) as [Hcan Hct].
  pose proof Hct as (ht & hu & e & _ & _ & _ & _ & _ & Hg & Hmv & _).
  pose proof Hcan as (Ha & Hf & _).
  destruct Hmv as (_ & _ & Hl & _).
  split; [by eapply grows_bounded|]. split; [auto|].
  split; [by eapply idsAllocated_contributed|].
  split; [by eapply singleOpen_contributed | by eapply accounted_contributed].
Qed.

Lemma consistent_genesis : consistent genesis.
Proof.
  unfold consistent, idsAllocated, allocated, singleOpen, isOpen, accounted,
    balancesLive, bounded; cbn.
  split; [by apply Forall_nil|].
  split; [intros a h; by rewrite lookup_empty|].
  split; [|split].
  - split; [done|]. split; [done|]. split; [|split].
    + intros id. rewrite lookup_empty. split; [lia | by intros [? ?]].
    + intros id c. by rewrite lookup_empty.
    + intros id who h Hin. by apply elem_of_nil in Hin.
  - split; [by left|]. intros id (c & Hc & _). by rewrite lookup_empty in Hc.
  - split; [|split].
    + intros id who h Hin. by apply elem_of_nil in Hin.
    + intros id c. by rewrite lookup_empty.
    + intros id who. by rewrite lookup_empty.
Qed.

Lemma consistent_step sender now c s :
  sender <> ADDRESS_ZERO ->
  consistent s -> consistent (step this clamp sender now c s).
Proof.
  intros Hs Hcon. pose proof Hcon as (Hb & Hbl & Hids & Hso & Hacc).
  unfold step. destruct (exec this clamp sender now c s) as [[u s']|e] eqn:Hx; [|done].
  destruct c as [title target closes | x | | to amount | operator until | to x];
    cbn [exec] in Hx.
  - pose proof (outcome_ok _ _ _ _ _ _
      (outcome_createCampaign this sender now title target closes s) Hx)
      as [(Ha & _ & _ & _ & Hlt) Hcr].
    pose proof Hcr as (Et & Hg & _).
    split; [by eapply grows_bounded|].
    split; [by eapply balancesLive_grows|].
    split; [by eapply idsAllocated_created|].
    split; [by eapply singleOpen_created | by eapply accounted_created].
  - apply discard_result_ok in Hx as [h Hx]. by eapply consistent_contribute.
  - apply discard_result_ok in Hx as [h Hx].
    pose proof (outcome_ok _ _ _ _ _ _
      (outcome_finalizeCampaign this clamp sender now s) Hx) as [Hcan Hsw].
    pose proof Hsw as (_ & _ & _ & _ & _ & Hg & Hmv).
    destruct (Hmv Hbl) as (_ & _ & Hl & _).
    pose proof Hcan as (Ha & Ho & Hf).
    split; [by eapply grows_bounded|]. split; [auto|].
    split; [by apply (idsAllocated_swept clamp this sender s h s')|].
    split; [by eapply singleOpen_swept|].
    eapply accounted_swept; [|exact Hsw|done].
    apply campaignAt_stored_owner. congruence.
  - pose proof (outcome_ok _ _ _ _ _ _ (outcome_mint to amount s) Hx) as [Htok Hl].
    by eapply consistent_tokenOnly.
  - pose proof (outcome_ok _ _ _ _ _ _
      (outcome_setOperator sender operator until s) Hx) as [Htok Hl].
    by eapply consistent_tokenOnly.
  - pose proof (outcome_ok _ _ _ _ _ _ (outcome_tokenTransfer sender now to x s) Hx)
      as [Htok Hl].
    by eapply consistent_tokenOnly.
Qed.

Lemma reachable_consistent s : reachable this clamp s -> consistent s.
Proof.
  induction 1 as [|s sender now c _ IH Hs _];
    [apply consistent_genesis | by apply consistent_step].
Qed.

End Reachability.

(** ** Properties of the contract *)

Section Properties.

Variable this : address.
Variable clamp : Z -> Z -> Z.

(** Running a call that reverts changes nothing. *)
Lemma step_reverted sender now c s e :
  exec this clamp sender now c s = Err e -> step this clamp sender now c s = s.
Proof. unfold step. by intros ->. Qed.

Lemma singleOpen_step sender now c s :
  singleOpen s -> singleOpen (step this clamp sender now c s).
Proof.
  intros Hso. unfold step.
  destruct (exec this clamp sender now c s) as [[u s']|e] eqn:Hx; [|done].
  destruct c as [title target closes | x | | to amount | operator until | to x];
    cbn [exec] in Hx.
  - pose proof (outcome_ok _ _ _ _ _ _
      (outcome_createCampaign this sender now title target closes s) Hx)
      as [(Ha & _) Hcr].
    by eapply singleOpen_created.
  - apply discard_result_ok in Hx as [h Hx].
    pose proof (outcome_ok _ _ _ _ _ _
      (outcome_contribute this clamp sender now x s) Hx) as [(Ha & Hf & _) Hct].
    by eapply singleOpen_contributed.
  - apply discard_result_ok in Hx as [h Hx].
    pose proof (outcome_ok _ _ _ _ _ _
      (outcome_finalizeCampaign this clamp sender now s) Hx) as [_ Hsw].
    by eapply singleOpen_swept.
  - pose proof (outcome_ok _ _ _ _ _ _ (outcome_mint to amount s) Hx) as [Htok _].
    by eapply singleOpen_tokenOnly.
  - pose proof (outcome_ok _ _ _ _ _ _
      (outcome_setOperator sender operator until s) Hx) as [Htok _].
    by eapply singleOpen_tokenOnly.
  - pose proof (outcome_ok _ _ _ _ _ _ (outcome_tokenTransfer this clamp sender now to x s) Hx)
      as [Htok _].
    by eapply singleOpen_tokenOnly.
Qed.

(** C9. In every reachable state at most one campaign is open: the active
    id is 0, or it is the id of a stored campaign that is not finalised, and
    no other stored campaign is unfinalised.  Each public operation
    (createCampaign, contribute, finalizeCampaign, and the token calls)
    preserves this, whether it succeeds or reverts. *)
Theorem at_most_one_open_campaign :
  (forall s, reachable this clamp s ->
     (_activeCampaignId s = 0 \/ isOpen s (_activeCampaignId s)) /\
     (forall id, isOpen s id -> id <> 0 /\ id = _activeCampaignId s)) /\
  (forall s sender now c,
     singleOpen s -> singleOpen (step this clamp sender now c s)) /\
  (forall s sender now payout s',
     finalizeCampaign this clamp sender now s = Ok (payout, s') ->
     _activeCampaignId s' = 0).
Proof.
  split; [|split].
  - intros s Hr. by apply (reachable_consistent this clamp) in Hr as (_ & _ & _ & Hso & _).
  - intros s sender now c. apply singleOpen_step.
  - intros s sender now payout s' Hx.
    by pose proof (outcome_ok _ _ _ _ _ _
      (outcome_finalizeCampaign this clamp sender now s) Hx) as [_ (_ & Ha & _)].
Qed.

(** C7. With no campaign open, createCampaign fails with
    InvalidCampaignConfig exactly when the name is empty, the target is zero
    or the deadline is not after the current time; with a campaign open it
    fails with ActiveCampaignAlreadyExists whatever the configuration. *)
Theorem createCampaign_rejects_invalid_config :
  forall s sender now title target closes,
    (_activeCampaignId s = 0 ->
       (createCampaign this sender now title target closes s
          = Err InvalidCampaignConfig
        <-> title = EmptyString \/ target = 0%Z \/ closes <= now)) /\
    (_activeCampaignId s <> 0 ->
       createCampaign this sender now title target closes s
         = Err ActiveCampaignAlreadyExists).
Proof.
  intros s sender now title target closes.
  pose proof (outcome_createCampaign this sender now title target closes s) as Ho.
  unfold outcome in Ho.
  destruct (createCampaign this sender now title target closes s) as [[u s']|e].
  - destruct Ho as [(Ha & Ht & Hg & Hd & _) _]. split.
    + intros _. split; [done|]. intros [?|[?|?]]; [done|done|lia].
    + done.
  - split.
    + intros Ha. split.
      * intros [= ->].
        destruct Ho as [[? _]|[(_ & _ & Hbad)|[? _]]]; done.
      * intros Hbad.
        destruct Ho as [[_ ?]|[[-> _]|(_ & _ & Ht & Hg & Hd & _)]]; [done|done|].
        destruct Hbad as [?|[?|?]]; [done|done|lia].
    + intros Ha. destruct Ho as [[-> _]|[(_ & ? & _)|(_ & ? & _)]]; done.
Qed.

(** C8. finalizeCampaign called on an active campaign by anyone but its
    owner fails with UnauthorizedOwner, and the call leaves the whole state
    as it was: running total, finalised flag, active id and balances. *)
Theorem finalizeCampaign_rejects_non_owner :
  forall s sender now,
    _activeCampaignId s <> 0 ->
    owner (campaignAt s (_activeCampaignId s)) <> sender ->
    finalizeCampaign this clamp sender now s = Err UnauthorizedOwner /\
    let s' := step this clamp sender now FinalizeCampaign s in
    s' = s /\
    totalRaised (campaignAt s' (_activeCampaignId s))
      = totalRaised (campaignAt s (_activeCampaignId s)) /\
    finalized (campaignAt s' (_activeCampaignId s))
      = finalized (campaignAt s (_activeCampaignId s)) /\
    _activeCampaignId s' = _activeCampaignId s /\
    balances (cusdt s') = balances (cusdt s).
Proof.
  intros s sender now Ha Ho.
  pose proof (outcome_finalizeCampaign this clamp sender now s) as Hout.
  unfold outcome in Hout.
  assert (Hx : finalizeCampaign this clamp sender now s = Err UnauthorizedOwner).
  { destruct (finalizeCampaign this clamp sender now s) as [[u s']|e].
    - by destruct Hout as [(_ & ? & _) _].
    - destruct Hout as [[_ ?]|[[-> _]|(_ & _ & ? & _)]]; done. }
  split; [done|].
  assert (Hs : step this clamp sender now FinalizeCampaign s = s).
  { eapply step_reverted. cbn [exec]. by apply discard_result_err. }
  cbn zeta. by rewrite Hs.
Qed.

(** C4 (as amended). contribute fails with CampaignNotFound when no
    campaign is active, and with CampaignClosed when the active campaign is
    finalised or its deadline has been reached.  CampaignNotFound is also
    what getCampaign answers for an id that holds no campaign, so the two
    situations share one error kind. *)
Theorem contribute_rejections :
  forall s sender now x,
    (_activeCampaignId s = 0 ->
       contribute this clamp sender now x s = Err CampaignNotFound) /\
    (_activeCampaignId s <> 0 ->
       finalized (campaignAt s (_activeCampaignId s)) = true \/
       deadline (campaignAt s (_activeCampaignId s)) <= now ->
       contribute this clamp sender now x s = Err CampaignClosed) /\
    (forall id, owner (campaignAt s id) = ADDRESS_ZERO ->
       getCampaign id s = Err CampaignNotFound).
Proof.
  intros s sender now x.
  pose proof (outcome_contribute this clamp sender now x s) as Hout.
  unfold outcome in Hout. cbn zeta in Hout.
  split; [|split].
  - intros Ha. destruct (contribute this clamp sender now x s) as [[u s']|e].
    + by destruct Hout as [(? & _) _].
    + destruct Hout as [[-> _]|[(_ & ? & _)|[(_ & ? & _)|(_ & ? & _)]]]; done.
  - intros Ha Hcl. destruct (contribute this clamp sender now x s) as [[u s']|e].
    + destruct Hout as [(_ & Hf & Hd & _) _].
      destruct Hcl as [?|?]; [congruence|lia].
    + destruct Hout as [[_ ?]|[[-> _]|[(_ & _ & Hf & Hd & _)|(_ & _ & Hf & Hd & _)]]];
        [done|done| |]; (destruct Hcl as [?|?]; [congruence|lia]).
  - intros id Ho. unfold getCampaign. by rewrite Ho.
Qed.

(** C10. getContribution never fails: for every campaign id and
    contributor, allocated or not, it returns the stored handle when there
    is one and the uninitialised handle otherwise.  The uninitialised handle
    holds no ciphertext, while an encrypted zero is an initialised handle
    that decrypts to 0. *)
Theorem getContribution_total :
  forall s id who,
    getContribution id who s = Ok (contributionAt s id who) /\
    (forall h, _contributions s !! (id, who) = Some h ->
       getContribution id who s = Ok h) /\
    (_contributions s !! (id, who) = None ->
       getContribution id who s = Ok uninitialized) /\
    isInitialized uninitialized = false /\
    decrypt (fhe s) uninitialized = None /\
    (forall zero f', encryptConstant 0 (fhe s) = (zero, f') ->
       isInitialized zero = true /\ zero <> uninitialized /\
       decrypt f' zero = Some 0%Z).
Proof.
  intros s id who. unfold getContribution, contributionAt.
  split; [done|]. split; [by intros h ->|]. split; [by intros ->|].
  split; [done|]. split; [done|].
  intros zero f' [= <- <-].
  pose proof (fresh_isInitialized (fhe s)) as Hi.
  split; [done|]. split.
  - intros Hz. unfold uninitialized in Hz. by rewrite Hz in Hi.
  - apply (decrypt_encrypt 0 (fhe s)).
Qed.

(** C5 (as amended). In a reachable state, for an id that was never
    allocated getCampaign fails with CampaignNotFound while getContribution
    succeeds with the uninitialised handle; for a finalised campaign
    getCampaign returns the stored metadata, whose finalised flag is set. *)
Theorem lookups_of_unknown_and_finalized_ids :
  forall s,
    reachable this clamp s ->
    (forall id, ~ allocated s id ->
       getCampaign id s = Err CampaignNotFound /\
       forall who, getContribution id who s = Ok uninitialized) /\
    (forall id c, _campaigns s !! id = Some c -> finalized c = true ->
       getCampaign id s = Ok c /\
       exists stored, getCampaign id s = Ok stored /\ finalized stored = true).
Proof.
  intros s Hr.
  apply (reachable_consistent this clamp) in Hr
    as (_ & _ & (_ & _ & Hal & Hown & Hev) & _ & (_ & _ & Hrec)).
  split.
  - intros id Hna.
    assert (Hnone : _campaigns s !! id = None).
    { destruct (_campaigns s !! id) eqn:E; [|done].
      destruct Hna. apply Hal. by rewrite E. }
    split.
    + unfold getCampaign, campaignAt. by rewrite Hnone.
    + intros who. unfold getContribution, contributionAt.
      specialize (Hrec id who).
      destruct (_contributions s !! (id, who)) as [h|]; [|done].
      destruct Hrec as [Hne _].
      destruct (omap (transferBy id who) (events s)) as [|h' hs] eqn:E; [done|].
      assert (Hin : h' ∈ omap (transferBy id who) (events s)) by (rewrite E; left).
      apply list_elem_of_omap in Hin as (e & He & Hte).
      apply transferBy_Some in Hte as ->. by apply Hev in He.
  - intros id c Hc Hf.
    assert (Hg : getCampaign id s = Ok c).
    { unfold getCampaign, campaignAt. rewrite Hc. cbn.
      destruct (N.eqb_spec (owner c) ADDRESS_ZERO) as [Hz|_]; [|done].
      by apply Hown in Hc. }
    split; [done|]. by exists c.
Qed.

(** While a campaign is active, every call but a finalisation leaves the
    active id as it is. *)
Lemma active_kept sender now c s :
  _activeCampaignId s <> 0 -> c <> FinalizeCampaign ->
  _activeCampaignId (step this clamp sender now c s) = _activeCampaignId s.
Proof.
  intros Ha Hc. unfold step.
  destruct (exec this clamp sender now c s) as [[u s']|e] eqn:Hx; [|done].
  destruct c as [title target closes | x | | to amount | operator until | to x];
    cbn [exec] in Hx.
  - by pose proof (outcome_ok _ _ _ _ _ _
      (outcome_createCampaign this sender now title target closes s) Hx)
      as [(? & _) _].
  - apply discard_result_ok in Hx as [h Hx].
    by pose proof (outcome_ok _ _ _ _ _ _
      (outcome_contribute this clamp sender now x s) Hx)
      as [_ (ht & hu & e & _ & ? & _)].
  - done.
  - by pose proof (outcome_ok _ _ _ _ _ _ (outcome_mint to amount s) Hx)
      as [[(_ & ? & _) _] _].
  - by pose proof (outcome_ok _ _ _ _ _ _
      (outcome_setOperator sender operator until s) Hx) as [[(_ & ? & _) _] _].
  - by pose proof (outcome_ok _ _ _ _ _ _
      (outcome_tokenTransfer this clamp sender now to x s) Hx)
      as [[(_ & ? & _) _] _].
Qed.

Lemma active_kept_run calls s :
  _activeCampaignId s <> 0 ->
  Forall (fun call => call.2 <> FinalizeCampaign) calls ->
  _activeCampaignId (run this clamp calls s) = _activeCampaignId s.
Proof.
  intros Ha Hall. revert s Ha.
  induction Hall as [|[[who now] c] calls Hc _ IH]; intros s Ha; [done|].
  cbn in Hc.
  change (run this clamp ((who, now, c) :: calls) s)
    with (run this clamp calls (step this clamp who now c s)).
  rewrite IH; rewrite (active_kept who now c s Ha Hc); done.
Qed.

Lemma createCampaign_while_active sender now title target closes s :
  _activeCampaignId s <> 0 ->
  createCampaign this sender now title target closes s
    = Err ActiveCampaignAlreadyExists.
Proof.
  intros Ha.
  pose proof (outcome_createCampaign this sender now title target closes s) as Ho.
  unfold outcome in Ho.
  destruct (createCampaign this sender now title target closes s) as [[u s']|e].
  - by destruct Ho as [(? & _) _].
  - destruct Ho as [[-> _]|[(_ & ? & _)|(_ & ? & _)]]; done.
Qed.

Lemma createCampaign_succeeds sender now title target closes s :
  canCreate s now title target closes ->
  exists s', createCampaign this sender now title target closes s = Ok (tt, s') /\
             created sender title target closes s s'.
Proof.
  intros (Ha & Ht & Hg & Hd & Hlt).
  pose proof (outcome_createCampaign this sender now title target closes s) as Ho.
  unfold outcome in Ho.
  destruct (createCampaign this sender now title target closes s) as [[[] s']|e].
  - exists s'. by destruct Ho.
  - destruct Ho as [[_ ?]|[(_ & _ & [?|[?|?]])|(_ & _ & _ & _ & _ & ?)]];
      [done|done|done|lia|lia].
Qed.

(** C6 (as amended). For a valid input (non-empty name, positive target,
    deadline after the current time), with no campaign active and the id
    counter below 2^256 - 1, createCampaign succeeds; activeCampaignId() then
    returns the newly allocated id, the counter plus one; and every further
    createCampaign, after any calls that do not finalise, fails with
    ActiveCampaignAlreadyExists. *)
Theorem createCampaign_opens_the_only_campaign :
  forall s sender now title target closes,
    _activeCampaignId s = 0 ->
    title <> EmptyString -> (0 < target)%Z -> now < closes ->
    _campaignCounter s < MAX_UINT256 ->
    exists s',
      createCampaign this sender now title target closes s = Ok (tt, s') /\
      activeCampaignId s' = Ok (_campaignCounter s + 1) /\
      _campaignCounter s' = _campaignCounter s + 1 /\
      is_Some (_campaigns s' !! (_campaignCounter s + 1)) /\
      forall calls,
        Forall (fun call => call.2 <> FinalizeCampaign) calls ->
        forall sender' now' title' target' closes',
          createCampaign this sender' now' title' target' closes'
            (run this clamp calls s') = Err ActiveCampaignAlreadyExists.
Proof.
  intros s sender now title target closes Ha Ht Hg Hd Hlt.
  destruct (createCampaign_succeeds sender now title target closes s)
    as (s' & Hx & Hcr); [unfold canCreate; repeat split; try done; lia|].
  destruct Hcr as (_ & _ & Ec & Ea & (g & t & Em & _) & _).
  exists s'. split; [done|]. split; [unfold activeCampaignId; by rewrite Ea|].
  split; [done|]. split; [rewrite Em, lookup_insert_eq; by eexists|].
  intros calls Hall sender' now' title' target' closes'.
  apply createCampaign_while_active.
  rewrite active_kept_run; [lia | lia | done].
Qed.


Lemma finalizeCampaign_succeeds sender now s :
  canFinalize sender s ->
  exists payout s', finalizeCampaign this clamp sender now s = Ok (payout, s') /\
                    swept clamp this s payout s'.
Proof.
  intros (Ha & Ho & Hf).
  pose proof (outcome_finalizeCampaign this clamp sender now s) as Hout.
  unfold outcome in Hout.
  destruct (finalizeCampaign this clamp sender now s) as [[payout s']|e].
  - exists payout, s'. by destruct Hout.
  - destruct Hout as [[_ ?]|[(_ & _ & ?)|(_ & _ & _ & ?)]]; [done|done|congruence].
Qed.


(** A successful contribution logs exactly its effective amount: what the
    token moved from the contributor to the pooled account. *)
Lemma contribution_logged sender now x s h s' :
  consistent s ->
  contribute this clamp sender now x s = Ok (h, s') ->
  exists e,
    (0 <= e < TWO64)%Z /\
    e = (clamp (plain (fhe s) (balanceOf (cusdt s) sender)) (sealed x) mod TWO64)%Z /\
    effectiveAmounts s' (_activeCampaignId s)
      = effectiveAmounts s (_activeCampaignId s) ++ [e] /\
    contributedBy s' (_activeCampaignId s) sender
      = contributedBy s (_activeCampaignId s) sender ++ [e] /\
    contributionAt s' (_activeCampaignId s) sender = h /\
    _activeCampaignId s' = _activeCampaignId s /\
    (sender <> this ->
       decrypt (fhe s') (balanceOf (cusdt s') sender)
         = Some ((plain (fhe s) (balanceOf (cusdt s) sender) - e) mod TWO64)%Z).
Proof.
  intros (_ & Hbl & _ & _ & Hacc) Hx.
  pose proof (outcome_ok _ _ _ _ _ _
    (outcome_contribute this clamp sender now x s) Hx) as [Hcan Hct].
  destruct Hct as (ht & hu & e & _ & Ea & _ & Ek & Ee & Hg & Hmv & De & Be & _).
  destruct Hmv as (_ & _ & _ & e' & De' & _ & Hbal).
  destruct (Hbal Hbl) as [He' Hmoved].
  assert (e' = e) as -> by congruence.
  destruct Hacc as (Hl & _).
  exists e. split; [done|]. split; [done|].
  split; [|split; [|split; [|split]]].
  - unfold effectiveAmounts. rewrite Ee, omap_app, fmap_app.
    f_equal; [by apply amounts_grows, logged_live_to|]. cbn.
    by rewrite N.eqb_refl; cbn; rewrite (plain_decrypt _ _ _ De).
  - unfold contributedBy. rewrite Ee, omap_app, fmap_app.
    f_equal; [by apply amounts_grows, logged_live_by|]. cbn.
    by rewrite !N.eqb_refl; cbn; rewrite (plain_decrypt _ _ _ De).
  - unfold contributionAt. by rewrite Ek, lookup_insert_eq.
  - done.
  - intros Hne. by destruct (Hmoved Hne).
Qed.

(** C1. The stored running total of every campaign decrypts to the sum,
    modulo 2^64, of the effectively transferred amounts of the contributions
    it received.  The value does not depend on the order of folding: two
    campaigns, in whatever reachable states, whose contributions carry the
    same amounts in any order have the same decrypted total.  Each successful
    contribution adds exactly the amount the token moved. *)
Theorem total_is_sum_of_contributions :
  forall s id c,
    reachable this clamp s ->
    _campaigns s !! id = Some c ->
    decrypt (fhe s) (totalRaised c)
      = Some (sumZ (effectiveAmounts s id) mod TWO64)%Z /\
    (forall s2 id2 c2,
       reachable this clamp s2 ->
       _campaigns s2 !! id2 = Some c2 ->
       effectiveAmounts s2 id2 ≡ₚ effectiveAmounts s id ->
       decrypt (fhe s2) (totalRaised c2) = decrypt (fhe s) (totalRaised c)) /\
    (forall sender now x h s',
       id = _activeCampaignId s ->
       contribute this clamp sender now x s = Ok (h, s') ->
       exists e,
         e = (clamp (plain (fhe s) (balanceOf (cusdt s) sender)) (sealed x)
              mod TWO64)%Z /\
         effectiveAmounts s' id = effectiveAmounts s id ++ [e] /\
         decrypt (fhe s') (totalRaised (campaignAt s' id))
           = Some ((sumZ (effectiveAmounts s id) + e) mod TWO64)%Z).
Proof.
  intros s id c Hr Hc.
  pose proof (reachable_consistent this clamp s Hr) as (_ & _ & _ & _ & (_ & Ht & _)).
  split; [by apply Ht|]. split.
  - intros s2 id2 c2 Hr2 Hc2 Hperm.
    pose proof (reachable_consistent this clamp s2 Hr2)
      as (_ & _ & _ & _ & (_ & Ht2 & _)).
    by rewrite (Ht2 _ _ Hc2), (Ht _ _ Hc), (sumZ_Permutation _ _ Hperm).
  - intros sender now x h s' -> Hx.
    destruct (contribution_logged sender now x s h s'
                (reachable_consistent this clamp s Hr) Hx)
      as (e & _ & He & Hto & _ & _ & Ea & _).
    exists e. split; [done|]. split; [done|].
    pose proof (outcome_ok _ _ _ _ _ _
      (outcome_contribute this clamp sender now x s) Hx) as [Hcan Hct].
    pose proof (reachable_consistent this clamp s Hr) as (_ & _ & _ & _ & Hacc).
    pose proof (accounted_contributed _ _ _ _ _ _ _ _ Hcan Hct Hacc) as (_ & Ht' & _).
    destruct Hct as (ht & hu & e0 & _ & _ & Em & _).
    rewrite (Ht' (_activeCampaignId s) (campaignAt s' (_activeCampaignId s))).
    + rewrite Hto, sumZ_app. cbn. by rewrite Z.add_0_r.
    + unfold campaignAt at 1. by rewrite Em, lookup_insert_eq.
Qed.


End Properties.

(** ** The properties on the test scenario *)

Lemma reachable_run this clamp calls s :
  reachable this clamp s ->
  Forall (fun call => call.1.1 <> ADDRESS_ZERO /\ call.1.1 <> this) calls ->
  reachable this clamp (run this clamp calls s).
Proof.
  intros Hr Hall. revert s Hr.
  induction Hall as [|[[who now] c] calls [H0 Ht] _ IH]; intros s Hr; [done|].
  change (run this clamp ((who, now, c) :: calls) s)
    with (run this clamp calls (step this clamp who now c s)).
  apply IH. by apply reachable_step.
Defined.

Lemma raised_reachable : reachable vault wholeOrNothing raised.
Proof.
  unfold raised, funded, opened, play.
  repeat (apply reachable_run; [|repeat constructor; done]).
  apply reachable_genesis.
Defined.

Lemma closed_reachable : reachable vault wholeOrNothing closed.
Proof.
  unfold closed, play.
  apply reachable_run; [apply raised_reachable | repeat constructor; done].
Defined.


Lemma total_is_sum_of_contributions_witness :
  reachable vault wholeOrNothing raised /\
  _campaigns raised !! 1 = Some (campaignAt raised 1) /\
  effectiveAmounts raised 1 = [150; 150]%Z /\
  decrypt (fhe raised) (totalRaised (campaignAt raised 1)) = Some 300%Z.
Proof.
  split; [apply raised_reachable|]. split; [by vm_compute|].
  split; [by vm_compute|].
  destruct (total_is_sum_of_contributions vault wholeOrNothing raised 1
              (campaignAt raised 1) raised_reachable) as [H _]; [by vm_compute|].
  rewrite H. by vm_compute.
Defined.



Lemma finalizeCampaign_rejects_non_owner_witness :
  _activeCampaignId raised = 1 /\
  owner (campaignAt raised 1) = creator /\
  finalizeCampaign vault wholeOrNothing alice 15 raised = Err UnauthorizedOwner /\
  step vault wholeOrNothing alice 15 FinalizeCampaign raised = raised.
Proof.
  split; [by vm_compute|]. split; [by vm_compute|].
  destruct (finalizeCampaign_rejects_non_owner vault wholeOrNothing raised alice 15)
    as [Hx Hrest]; [by vm_compute | by vm_compute |].
  split; [exact Hx|]. cbn zeta in Hrest. exact (proj1 Hrest).
Defined.

Lemma lookups_of_unknown_and_finalized_ids_witness :
  reachable vault wholeOrNothing closed /\
  getCampaign 7 closed = Err CampaignNotFound /\
  getContribution 7 alice closed = Ok uninitialized /\
  finalized (campaignAt closed 1) = true /\
  getCampaign 1 closed = Ok (campaignAt closed 1).
Proof.
  split; [apply closed_reachable|].
  destruct (lookups_of_unknown_and_finalized_ids vault wholeOrNothing closed
              closed_reachable) as [Hun Hfin].
  destruct (Hun 7) as [H7 H7c].
  { unfold allocated. replace (_campaignCounter closed) with 1 by (by vm_compute). lia. }
  split; [done|]. split; [apply H7c|]. split; [by vm_compute|].
  destruct (Hfin 1 (campaignAt closed 1)) as [H1 _]; [by vm_compute | by vm_compute | done].
Defined.

(** On an id that was never allocated getContribution answers with the
    uninitialised handle instead of failing with CampaignNotFound. *)
Lemma getContribution_unknown_id_succeeds :
  getCampaign 7 closed = Err CampaignNotFound /\
  getContribution 7 alice closed = Ok uninitialized.
Proof. by vm_compute. Qed.

(** With nothing open, contribute fails with the very error getCampaign
    gives for an id that holds no campaign. *)
Lemma contribute_and_lookup_share_error :
  _activeCampaignId closed = 0 /\
  contribute vault wholeOrNothing alice 20 (mkExternal 150 true) closed
    = Err CampaignNotFound /\
  getCampaign 7 closed = Err CampaignNotFound.
Proof. by vm_compute. Qed.

(** Every value of the id counter up to 2^256 - 1 is reached, with no
    campaign active, by creating and finalising campaigns in turn. *)
Lemma counter_reaches this clamp n :
  n <= MAX_UINT256 ->
  exists s, reachable this clamp s /\ _campaignCounter s = n /\
            _activeCampaignId s = 0.
Proof.
  set (who := if this =? 1 then 2 else 1).
  assert (Hw0 : who <> ADDRESS_ZERO) by (unfold who; by destruct (this =? 1)).
  assert (Hwt : who <> this).
  { unfold who. destruct (N.eqb_spec this 1) as [->|]; [done | congruence]. }
  induction n as [|n IH] using N.peano_ind; intros Hn.
  - exists genesis. split; [apply reachable_genesis | done].
  - destruct IH as (s & Hr & Hc & Ha); [lia|].
    destruct (createCampaign_succeeds this who 0 "x" 1 1 s) as (s1 & Hx1 & Hcr).
    { unfold canCreate. split; [done|]. split; [done|]. split; [done|]. lia. }
    assert (Hr1 : reachable this clamp s1).
    { pose proof (reachable_step this clamp s who 0 (CreateCampaign "x" 1 1) Hr Hw0 Hwt)
        as Hstep.
      unfold step in Hstep. cbn [exec] in Hstep. by rewrite Hx1 in Hstep. }
    destruct Hcr as (_ & _ & Ec1 & Ea1 & (g & t & Em1 & _) & _).
    assert (Hat : campaignAt s1 (_activeCampaignId s1) = mkCampaign who "x" 1 g t false).
    { unfold campaignAt. by rewrite Ea1, Em1, lookup_insert_eq. }
    destruct (finalizeCampaign_succeeds this clamp who 0 s1) as (p & s2 & Hx2 & Hsw).
    { unfold canFinalize. rewrite Hat. cbn. split; [lia|done]. }
    exists s2. split; [|split].
    + pose proof (reachable_step this clamp s1 who 0 FinalizeCampaign Hr1 Hw0 Hwt)
        as Hstep.
      unfold step in Hstep. cbn [exec] in Hstep. unfold bind in Hstep.
      by rewrite Hx2 in Hstep.
    + destruct Hsw as (-> & _). lia.
    + by destruct Hsw as (_ & -> & _).
Qed.

Lemma createCampaign_opens_the_only_campaign_witness :
  _activeCampaignId closed = 0 /\
  _campaignCounter closed = 1 /\
  exists s',
    createCampaign vault bob 20 "Second" 50 5000 closed = Ok (tt, s') /\
    activeCampaignId s' = Ok 2 /\
    createCampaign vault alice 21 "Third" 60 6000
      (play [(alice, 21, Contribute (mkExternal 10 true))] s')
      = Err ActiveCampaignAlreadyExists.
Proof.
  split; [by vm_compute|]. split; [by vm_compute|].
  destruct (createCampaign_opens_the_only_campaign vault wholeOrNothing closed
              bob 20 "Second" 50%Z 5000)
    as (s' & Hx & Ha & _ & _ & Hagain);
    [by vm_compute | done | done | done | by vm_compute |].
  exists s'. split; [done|]. split; [by rewrite Ha; vm_compute|].
  apply Hagain. repeat constructor; done.
Defined.

(** With the id counter at 2^256 - 1 a valid createCampaign with no
    campaign active reverts on the checked increment; such a state is
    reachable. *)
Lemma createCampaign_exhausted_counter_fails :
  (_activeCampaignId exhausted = 0 /\
   createCampaign vault creator 10 "Deep Space Vault" 1000 3610 exhausted
     = Err PanicOverflow) /\
  exists s,
    reachable vault wholeOrNothing s /\ _activeCampaignId s = 0 /\
    createCampaign vault creator 10 "Deep Space Vault" 1000 3610 s
      = Err PanicOverflow.
Proof.
  split; [by vm_compute|].
  destruct (counter_reaches vault wholeOrNothing MAX_UINT256) as (s & Hr & Hc & Ha);
    [done|].
  exists s. split; [done|]. split; [done|].
  pose proof (outcome_createCampaign vault creator 10 "Deep Space Vault" 1000 3610 s)
    as Ho.
  unfold outcome in Ho.
  destruct (createCampaign vault creator 10 "Deep Space Vault" 1000 3610 s)
    as [[u s']|e].
  - destruct Ho as [(_ & _ & _ & _ & Hlt) _]. lia.
  - destruct Ho as [[_ ?]|[(_ & _ & [?|[?|?]])|[-> _]]]; done.
Qed.

(** ** Further properties of the entry points *)

Section Lifecycle.

Variable this : address.
Variable clamp : Z -> Z -> Z.

(** In a reachable state the active campaign, if any, is stored and not
    finalised. *)
Lemma active_is_open s :
  reachable this clamp s -> _activeCampaignId s <> 0 ->
  _campaigns s !! _activeCampaignId s = Some (campaignAt s (_activeCampaignId s)) /\
  finalized (campaignAt s (_activeCampaignId s)) = false /\
  owner (campaignAt s (_activeCampaignId s)) <> ADDRESS_ZERO.
Proof.
  intros Hr Ha.
  pose proof (reachable_consistent this clamp s Hr)
    as (_ & _ & (_ & _ & _ & Hown & _) & ([H0 | (c & Hc & Hf)] & _) & _); [done|].
  rewrite (campaignAt_lookup _ _ _ Hc). split; [done|]. split; [done|]. eauto.
Qed.


(** X2. In a reachable state contribute fails with CampaignNotFound exactly
    when no campaign is active and with CampaignClosed exactly when one is
    active and the block time has reached its deadline; the finalised flag of
    the active campaign is never set.  It succeeds exactly when a campaign is
    active, the deadline lies ahead, the input is well formed and the
    contract is an operator of the caller. *)
Theorem contribute_outcomes :
  forall s sender now x,
    reachable this clamp s ->
    (contribute this clamp sender now x s = Err CampaignNotFound
       <-> _activeCampaignId s = 0) /\
    (contribute this clamp sender now x s = Err CampaignClosed
       <-> _activeCampaignId s <> 0 /\
           deadline (campaignAt s (_activeCampaignId s)) <= now) /\
    ((exists h s', contribute this clamp sender now x s = Ok (h, s'))
       <-> _activeCampaignId s <> 0 /\
           now < deadline (campaignAt s (_activeCampaignId s)) /\
           wellFormed x = true /\
           isAuthorizedOperator (cusdt s) sender this now = true).
Proof.
  intros s sender now x Hr.
  pose proof (outcome_contribute this clamp sender now x s) as Hout.
  unfold outcome in Hout. cbn zeta in Hout.
  pose proof (active_is_open s Hr) as Hopen.
  destruct (contribute this clamp sender now x s) as [[h s']|e].
  - destruct Hout as [(Ha & Hf & Hd & Hwf & Hop) _].
    split; [split; [done | intros; done]|].
    split; [split; [done | intros [_ ?]; lia]|].
    split; [intros _; by repeat split | intros _; eauto].
  - destruct Hout as [[-> Ha]|[(-> & Ha & Hcl)|[(-> & Ha & Hf & Hd & Hwf)
                     |(-> & Ha & Hf & Hd & Hwf & Hop)]]].
    + split; [done|]. split; [split; [done | by intros [? _]]|].
      split; [by intros (? & ? & ?) | by intros [? _]].
    + destruct (Hopen Ha) as (_ & Hnf & _).
      destruct Hcl as [?|Hd]; [congruence|].
      split; [split; [done | intros; done]|]. split; [done|].
      split; [by intros (? & ? & ?) | intros (_ & ? & _); lia].
    + split; [split; [done | intros; done]|].
      split; [split; [done | intros [_ ?]; lia]|].
      split; [by intros (? & ? & ?) | intros (_ & _ & ? & _); congruence].
    + split; [split; [done | intros; done]|].
      split; [split; [done | intros [_ ?]; lia]|].
      split; [by intros (? & ? & ?) | intros (_ & _ & _ & ?); congruence].
Qed.

Lemma decrypt_uninitialized_none f : decrypt f uninitialized = None.
Proof. reflexivity. Qed.

(** An id that was never allocated has no contribution record. *)
Lemma unallocated_no_record s id who :
  consistent s -> ~ allocated s id -> _contributions s !! (id, who) = None.
Proof.
  intros (_ & _ & (_ & _ & _ & _ & Hev) & _ & (_ & _ & Hrec)) Hna.
  specialize (Hrec id who).
  destruct (_contributions s !! (id, who)) as [h|]; [|done].
  destruct Hrec as [Hne _].
  destruct (omap (transferBy id who) (events s)) as [|h' hs] eqn:E; [done|].
  assert (Hin : h' ∈ omap (transferBy id who) (events s)) by (rewrite E; left).
  apply list_elem_of_omap in Hin as (e & He & Hte).
  apply transferBy_Some in Hte as ->. by apply Hev in He.
Qed.

Lemma unallocated_no_transfer s id :
  consistent s -> ~ allocated s id -> omap (transferTo id) (events s) = [].
Proof.
  intros (_ & _ & (_ & _ & _ & _ & Hev) & _) Hna.
  destruct (omap (transferTo id) (events s)) as [|h hs] eqn:E; [done|].
  assert (Hin : h ∈ omap (transferTo id) (events s)) by (rewrite E; left).
  apply list_elem_of_omap in Hin as (e & He & Hte).
  apply transferTo_Some in Hte as [who ->]. by apply Hev in He.
Qed.

(** X3. What createCampaign stored is what getCampaign returns: after a
    successful createCampaign in a reachable state, activeCampaignId() is the
    counter plus one and getCampaign of that id returns the caller as owner,
    the given name and deadline, finalized = false, a target handle that
    decrypts to the given target (modulo 2^64) and a total that decrypts to
    0; the new campaign has no contribution record and no logged
    contribution. *)
Theorem createCampaign_then_getCampaign :
  forall s sender now title target closes s',
    reachable this clamp s ->
    sender <> ADDRESS_ZERO ->
    createCampaign this sender now title target closes s = Ok (tt, s') ->
    activeCampaignId s' = Ok (_campaignCounter s + 1) /\
    (exists c,
       getCampaign (_campaignCounter s + 1) s' = Ok c /\
       owner c = sender /\ name c = title /\ deadline c = closes /\
       finalized c = false /\
       decrypt (fhe s') (targetAmount c) = Some (target mod TWO64)%Z /\
       decrypt (fhe s') (totalRaised c) = Some 0%Z) /\
    (forall who,
       getContribution (_campaignCounter s + 1) who s' = Ok uninitialized) /\
    effectiveAmounts s' (_campaignCounter s + 1) = [].
Proof.
  intros s sender now title target closes s' Hr Hs Hx.
  pose proof (reachable_consistent this clamp s Hr) as Hcon.
  pose proof (outcome_ok _ _ _ _ _ _
    (outcome_createCampaign this sender now title target closes s) Hx)
    as [_ (_ & _ & _ & Ea & (g & t & Em & Dg & Dt) & Ek & Ee)].
  assert (Hna : ~ allocated s (_campaignCounter s + 1)) by (unfold allocated; lia).
  split; [unfold activeCampaignId; by rewrite Ea|]. split; [|split].
  - exists (mkCampaign sender title closes g t false).
    unfold getCampaign, campaignAt. rewrite Em, lookup_insert_eq. cbn.
    destruct (N.eqb_spec sender ADDRESS_ZERO); done.
  - intros who. unfold getContribution, contributionAt.
    by rewrite Ek, (unallocated_no_record s _ who Hcon Hna).
  - unfold effectiveAmounts. rewrite Ee, omap_app.
    by rewrite (unallocated_no_transfer s _ Hcon Hna).
Qed.

(** X4. After a successful finalizeCampaign nothing is active: a second
    finalizeCampaign and any contribute fail with CampaignNotFound, whoever
    calls and whenever; the finalised campaign stays readable with its
    metadata and total and finalized = true; and a createCampaign with a valid
    configuration succeeds (while the counter can be incremented), under a
    new id, without touching the finalised campaign. *)
Theorem after_finalizeCampaign :
  forall s sender now payout s',
    reachable this clamp s ->
    finalizeCampaign this clamp sender now s = Ok (payout, s') ->
    (forall sender' now',
       finalizeCampaign this clamp sender' now' s' = Err CampaignNotFound) /\
    (forall sender' now' x,
       contribute this clamp sender' now' x s' = Err CampaignNotFound) /\
    (exists c,
       getCampaign (_activeCampaignId s) s = Ok c /\
       getCampaign (_activeCampaignId s) s'
         = Ok (mkCampaign (owner c) (name c) (deadline c) (targetAmount c)
                 (totalRaised c) true)) /\
    (forall sender' now' title target closes,
       title <> EmptyString -> target <> 0%Z -> now' < closes ->
       _campaignCounter s < MAX_UINT256 ->
       exists s'',
         createCampaign this sender' now' title target closes s' = Ok (tt, s'') /\
         activeCampaignId s'' = Ok (_campaignCounter s + 1) /\
         _campaignCounter s + 1 <> _activeCampaignId s /\
         getCampaign (_activeCampaignId s) s'' = getCampaign (_activeCampaignId s) s').
Proof.
  intros s sender now payout s' Hr Hx.
  pose proof (reachable_consistent this clamp s Hr) as Hcon.
  pose proof Hcon as (_ & _ & (_ & Hle & _) & _).
  pose proof (outcome_ok _ _ _ _ _ _
    (outcome_finalizeCampaign this clamp sender now s) Hx)
    as [(Ha & Ho & Hf) (Ec & Ea & Em & _)].
  destruct (active_is_open s Hr Ha) as (Hst & _ & Hown).
  split; [|split; [|split]].
  - intros sender' now'.
    pose proof (outcome_finalizeCampaign this clamp sender' now' s') as Hout.
    unfold outcome in Hout. cbn zeta in Hout.
    destruct (finalizeCampaign this clamp sender' now' s') as [[p2 s2]|e].
    + by destruct Hout as [(? & _) _].
    + destruct Hout as [[-> _]|[(_ & ? & _)|(_ & ? & _)]]; done.
  - intros sender' now' x.
    pose proof (outcome_contribute this clamp sender' now' x s') as Hout.
    unfold outcome in Hout. cbn zeta in Hout.
    destruct (contribute this clamp sender' now' x s') as [[h2 s2]|e].
    + by destruct Hout as [(? & _) _].
    + destruct Hout as [[-> _]|[(_ & ? & _)|[(_ & ? & _)|(_ & ? & _)]]]; done.
  - assert (Hz : (owner (campaignAt s (_activeCampaignId s)) =? 0) = false)
      by (by apply N.eqb_neq).
    exists (campaignAt s (_activeCampaignId s)). split.
    + unfold getCampaign, ADDRESS_ZERO. by rewrite Hz.
    + unfold getCampaign, ADDRESS_ZERO. unfold campaignAt at 1 2.
      rewrite Em, lookup_insert_eq. cbn. by rewrite Hz.
  - intros sender' now' title target closes Ht Hg Hd Hlt.
    destruct (createCampaign_succeeds this sender' now' title target closes s')
      as (s'' & Hx2 & Hcr); [unfold canCreate; rewrite Ec; by repeat split|].
    destruct Hcr as (_ & _ & _ & Ea2 & (g & t & Em2 & _) & _).
    rewrite Ec in Ea2, Em2.
    exists s''. split; [done|].
    split; [unfold activeCampaignId; by rewrite Ea2|].
    split; [lia|].
    unfold getCampaign, campaignAt. rewrite Em2, lookup_insert_ne by lia. done.
Qed.

(** X6. A call changes at most one contribution record: that of its caller
    in the active campaign, and only when it is a contribute.  Every other
    record, of another contributor or of another campaign, finalised ones
    included, stays as it was. *)
Theorem only_own_record_changes :
  forall s sender now c id who,
    contributionAt (step this clamp sender now c s) id who = contributionAt s id who \/
    (exists x, c = Contribute x /\ id = _activeCampaignId s /\ who = sender).
Proof.
  intros s sender now c id who. unfold step.
  destruct (exec this clamp sender now c s) as [[u s']|e] eqn:Hx; [|by left].
  unfold contributionAt.
  destruct c as [title target closes | x | | to amount | operator until | to x];
    cbn [exec] in Hx.
  - pose proof (outcome_ok _ _ _ _ _ _
      (outcome_createCampaign this sender now title target closes s) Hx)
      as [_ (_ & _ & _ & _ & _ & Ek & _)]. left. by rewrite Ek.
  - apply discard_result_ok in Hx as [h Hx].
    pose proof (outcome_ok _ _ _ _ _ _
      (outcome_contribute this clamp sender now x s) Hx)
      as [_ (ht & hu & e & _ & _ & _ & Ek & _)].
    destruct (decide ((_activeCampaignId s, sender) = (id, who))) as [[= <- <-]|Hne].
    + right. by exists x.
    + left. by rewrite Ek, lookup_insert_ne.
  - apply discard_result_ok in Hx as [h Hx].
    pose proof (outcome_ok _ _ _ _ _ _
      (outcome_finalizeCampaign this clamp sender now s) Hx)
      as [_ (_ & _ & _ & Ek & _)]. left. by rewrite Ek.
  - pose proof (outcome_ok _ _ _ _ _ _ (outcome_mint to amount s) Hx)
      as [[(_ & _ & _ & Ek & _) _] _]. left. by rewrite Ek.
  - pose proof (outcome_ok _ _ _ _ _ _
      (outcome_setOperator sender operator until s) Hx)
      as [[(_ & _ & _ & Ek & _) _] _]. left. by rewrite Ek.
  - pose proof (outcome_ok _ _ _ _ _ _
      (outcome_tokenTransfer this clamp sender now to x s) Hx)
      as [[(_ & _ & _ & Ek & _) _] _]. left. by rewrite Ek.
Qed.

(** One call keeps every stored campaign stored, with the metadata it was
    created with, and does not touch a finalised one. *)
Lemma campaign_kept_step sender now c s id cmp :
  consistent s -> _campaigns s !! id = Some cmp ->
  exists cmp', _campaigns (step this clamp sender now c s) !! id = Some cmp' /\
               sameMetadata cmp cmp' /\ (finalized cmp = true -> cmp' = cmp).
Proof.
  intros (_ & _ & (_ & _ & Hal & _) & _) Hc.
  assert (Hsame : exists cmp', _campaigns s !! id = Some cmp' /\
            sameMetadata cmp cmp' /\ (finalized cmp = true -> cmp' = cmp)).
  { exists cmp. by repeat split. }
  unfold step.
  destruct (exec this clamp sender now c s) as [[u s']|e] eqn:Hx; [|done].
  destruct c as [title target closes | x | | to amount | operator until | to x];
    cbn [exec] in Hx.
  - pose proof (outcome_ok _ _ _ _ _ _
      (outcome_createCampaign this sender now title target closes s) Hx)
      as [_ (_ & _ & _ & _ & (g & t & Em & _) & _)].
    assert (Hid : allocated s id) by (apply Hal; by eexists).
    unfold allocated in Hid. rewrite Em, lookup_insert_ne by lia. done.
  - apply discard_result_ok in Hx as [h Hx].
    pose proof (outcome_ok _ _ _ _ _ _
      (outcome_contribute this clamp sender now x s) Hx)
      as [(_ & Hf & _) (ht & hu & e & _ & _ & Em & _)].
    rewrite Em, lookup_insert. case_decide as Hid; [|done]. subst id.
    rewrite (campaignAt_lookup _ _ _ Hc) in Hf |- *.
    eexists. split; [done|]. split; [by repeat split | congruence].
  - apply discard_result_ok in Hx as [h Hx].
    pose proof (outcome_ok _ _ _ _ _ _
      (outcome_finalizeCampaign this clamp sender now s) Hx)
      as [(_ & _ & Hf) (_ & _ & Em & _)].
    rewrite Em, lookup_insert. case_decide as Hid; [|done]. subst id.
    rewrite (campaignAt_lookup _ _ _ Hc) in Hf |- *.
    eexists. split; [done|]. split; [by repeat split | congruence].
  - pose proof (outcome_ok _ _ _ _ _ _ (outcome_mint to amount s) Hx)
      as [[(_ & _ & Em & _) _] _]. by rewrite Em.
  - pose proof (outcome_ok _ _ _ _ _ _
      (outcome_setOperator sender operator until s) Hx) as [[(_ & _ & Em & _) _] _].
    by rewrite Em.
  - pose proof (outcome_ok _ _ _ _ _ _
      (outcome_tokenTransfer this clamp sender now to x s) Hx)
      as [[(_ & _ & Em & _) _] _]. by rewrite Em.
Qed.

(** X5. A campaign is written once: whatever calls follow, a stored
    campaign stays stored under its id with the owner, name, deadline and
    target handle it was created with (ids are never reused), and once it is
    finalised nothing about it changes any more, its running total
    included. *)
Theorem campaign_metadata_is_permanent :
  forall calls s id cmp,
    reachable this clamp s ->
    Forall (fun call => call.1.1 <> ADDRESS_ZERO) calls ->
    _campaigns s !! id = Some cmp ->
    exists cmp',
      _campaigns (run this clamp calls s) !! id = Some cmp' /\
      owner cmp' = owner cmp /\ name cmp' = name cmp /\
      deadline cmp' = deadline cmp /\ targetAmount cmp' = targetAmount cmp /\
      (finalized cmp = true -> cmp' = cmp).
Proof.
  intros calls s id cmp Hr Hall Hc.
  pose proof (reachable_consistent this clamp s Hr) as Hcon. clear Hr.
  revert s cmp Hcon Hc.
  induction Hall as [|[[who now] c] calls Hw _ IH]; intros s cmp Hcon Hc.
  - exists cmp. by repeat split.
  - change (run this clamp ((who, now, c) :: calls) s)
      with (run this clamp calls (step this clamp who now c s)).
    destruct (campaign_kept_step who now c s id cmp Hcon Hc)
      as (c1 & Hc1 & (M1 & M2 & M3 & M4) & Hfz).
    destruct (IH (step this clamp who now c s) c1)
      as (c2 & Hc2 & N1 & N2 & N3 & N4 & Hfz2);
      [by apply consistent_step | done |].
    exists c2. split; [done|].
    split; [congruence|]. split; [congruence|]. split; [congruence|].
    split; [congruence|].
    intros Hf. rewrite <- (Hfz Hf). apply Hfz2. by rewrite (Hfz Hf).
Qed.

Lemma idsUpTo_succ n : idsUpTo (n + 1) = idsUpTo n ++ [n + 1].
Proof.
  unfold idsUpTo. rewrite N.add_1_r, N2Nat.inj_succ, seq_S, fmap_app. cbn.
  do 3 f_equal. lia.
Qed.

(** Campaigns are created and finalised strictly in turn, under the ids
    1, 2, 3, ... *)
Lemma reachable_in_turn s :
  reachable this clamp s ->
  (_activeCampaignId s = 0 \/ _activeCampaignId s = _campaignCounter s) /\
  omap createdId (events s) = idsUpTo (_campaignCounter s) /\
  omap finalizedId (events s)
    = idsUpTo (if _activeCampaignId s =? 0 then _campaignCounter s
               else _campaignCounter s - 1).
Proof.
  induction 1 as [|s sender now c _ (IHa & IHc & IHf) _ _].
  { split; [by left|]. by split. }
  unfold step.
  destruct (exec this clamp sender now c s) as [[u s']|e] eqn:Hx; [|done].
  assert (Htok : tokenOnly s s' ->
    (_activeCampaignId s' = 0 \/ _activeCampaignId s' = _campaignCounter s') /\
    omap createdId (events s') = idsUpTo (_campaignCounter s') /\
    omap finalizedId (events s')
      = idsUpTo (if _activeCampaignId s' =? 0 then _campaignCounter s'
                 else _campaignCounter s' - 1)).
  { intros [(-> & -> & _ & _ & ->) _]. done. }
  destruct c as [title target closes | x | | to amount | operator until | to x];
    cbn [exec] in Hx.
  - pose proof (outcome_ok _ _ _ _ _ _
      (outcome_createCampaign this sender now title target closes s) Hx)
      as [(Ha & _) (_ & _ & Ec & Ea & _ & _ & Ee)].
    rewrite Ec, Ea, Ee, !omap_app; cbn. rewrite Ha in IHf; cbn in IHf.
    split; [by right|]. split; [by rewrite IHc, idsUpTo_succ|].
    rewrite app_nil_r, IHf.
    destruct (N.eqb_spec (_campaignCounter s + 1) 0); [lia|].
    f_equal. lia.
  - apply discard_result_ok in Hx as [h Hx].
    pose proof (outcome_ok _ _ _ _ _ _
      (outcome_contribute this clamp sender now x s) Hx)
      as [_ (ht & hu & e & Ec & Ea & _ & _ & Ee & _)].
    rewrite Ec, Ea, Ee, !omap_app; cbn. by rewrite !app_nil_r.
  - apply discard_result_ok in Hx as [h Hx].
    pose proof (outcome_ok _ _ _ _ _ _
      (outcome_finalizeCampaign this clamp sender now s) Hx)
      as [(Ha & _) (Ec & Ea & _ & _ & Ee & _)].
    rewrite Ec, Ea, Ee, !omap_app; cbn. rewrite app_nil_r.
    split; [by left|]. split; [done|].
    rewrite IHf. destruct IHa as [?|Hac]; [done|].
    destruct (N.eqb_spec (_activeCampaignId s) 0); [done|].
    rewrite Hac. replace (_campaignCounter s) with (_campaignCounter s - 1 + 1) at 2 3 by lia.
    by rewrite idsUpTo_succ.
  - apply Htok. by pose proof (outcome_ok _ _ _ _ _ _ (outcome_mint to amount s) Hx)
      as [? _].
  - apply Htok. by pose proof (outcome_ok _ _ _ _ _ _
      (outcome_setOperator sender operator until s) Hx) as [? _].
  - apply Htok. by pose proof (outcome_ok _ _ _ _ _ _
      (outcome_tokenTransfer this clamp sender now to x s) Hx) as [? _].
Qed.

(** X7. Ids are handed out consecutively and campaigns run strictly in
    turn.  In a reachable state the CampaignCreated events carry the ids
    1, 2, ..., counter in this order; the CampaignFinalized events carry the
    same ids in the same order, up to the counter when nothing is active and
    up to the one before when a campaign is; the active campaign, if any, is
    the one created last; and getCampaign succeeds exactly on the ids from 1
    to the counter. *)
Theorem campaigns_run_in_turn :
  forall s,
    reachable this clamp s ->
    omap createdId (events s) = idsUpTo (_campaignCounter s) /\
    omap finalizedId (events s)
      = idsUpTo (if _activeCampaignId s =? 0 then _campaignCounter s
                 else _campaignCounter s - 1) /\
    (_activeCampaignId s = 0 \/ _activeCampaignId s = _campaignCounter s) /\
    (forall id, (exists c, getCampaign id s = Ok c)
                <-> 1 <= id <= _campaignCounter s).
Proof.
  intros s Hr. destruct (reachable_in_turn s Hr) as (Ha & Hc & Hf).
  split; [done|]. split; [done|]. split; [done|].
  pose proof (reachable_consistent this clamp s Hr)
    as (_ & _ & (_ & _ & Hal & Hown & _) & _).
  intros id. split.
  - intros [c Hg]. apply Hal. unfold getCampaign, campaignAt in Hg.
    destruct (_campaigns s !! id) as [c'|]; [by eexists|]. done.
  - intros Hid. apply Hal in Hid as [c Hc'].
    exists c. unfold getCampaign. rewrite (campaignAt_lookup _ _ _ Hc').
    destruct (N.eqb_spec (owner c) ADDRESS_ZERO) as [Hz|_]; [|done].
    by apply Hown in Hc'.
Qed.

(** X8. A successful contribution moves one amount through the whole
    ledger.  For a caller other than the contract, in a reachable state, there
    is a single 64-bit amount [e], the handle logged by ContributionReceived,
    by which the caller's token balance is debited, the pooled account is
    credited, the running total of the active campaign grows and the caller's
    record grows (all modulo 2^64); no other token balance changes. *)
Theorem contribute_moves_one_amount :
  forall s sender now x h s',
    reachable this clamp s ->
    sender <> this ->
    contribute this clamp sender now x s = Ok (h, s') ->
    let id := _activeCampaignId s in
    exists transferred e,
      events s' = events s ++ [ContributionReceived id sender transferred] /\
      decrypt (fhe s') transferred = Some e /\
      (0 <= e < TWO64)%Z /\
      decrypt (fhe s') (balanceOf (cusdt s') sender)
        = Some ((plain (fhe s) (balanceOf (cusdt s) sender) - e) mod TWO64)%Z /\
      decrypt (fhe s') (balanceOf (cusdt s') this)
        = Some ((plain (fhe s) (balanceOf (cusdt s) this) + e) mod TWO64)%Z /\
      decrypt (fhe s') (totalRaised (campaignAt s' id))
        = Some ((plain (fhe s) (totalRaised (campaignAt s id)) + e) mod TWO64)%Z /\
      decrypt (fhe s') (contributionAt s' id sender)
        = Some ((plain (fhe s) (contributionAt s id sender) + e) mod TWO64)%Z /\
      (forall a, a <> sender -> a <> this ->
         balances (cusdt s') !! a = balances (cusdt s) !! a).
Proof.
  intros s sender now x h s' Hr Hne Hx id. subst id.
  pose proof (reachable_consistent this clamp s Hr) as (_ & Hbl & _ & _ & Hacc).
  pose proof (outcome_ok _ _ _ _ _ _
    (outcome_contribute this clamp sender now x s) Hx)
    as [(Ha & Hf & Hd & _) Hct].
  destruct Hct as (ht & hu & e & _ & _ & Em & Ek & Ee & _ & Hmv & De & Be & Dtot & Drec).
  destruct Hmv as (_ & Hoth & _ & e' & De' & _ & Hbal).
  destruct (Hbal Hbl) as [_ Hmoved]. destruct (Hmoved Hne) as [Hfrom Hto].
  assert (e' = e) as -> by congruence.
  assert (Hst : _campaigns s !! _activeCampaignId s
                = Some (campaignAt s (_activeCampaignId s))).
  { apply campaignAt_stored_deadline. lia. }
  destruct Hacc as (_ & Ht & Hrec).
  exists ht, e. split; [done|]. split; [done|]. split; [done|].
  split; [done|]. split; [done|]. split; [|split; [|done]].
  - unfold campaignAt at 1. rewrite Em, lookup_insert_eq. cbn.
    apply Dtot. right. eexists. by apply (Ht (_activeCampaignId s)).
  - unfold contributionAt at 1. rewrite Ek, lookup_insert_eq. cbn.
    apply Drec. specialize (Hrec (_activeCampaignId s) sender). unfold contributionAt.
    destruct (_contributions s !! (_activeCampaignId s, sender)) as [hp|]; cbn.
    + right. destruct Hrec as [_ ?]. by eexists.
    + by left.
Qed.

Lemma sumZ_mod_fmap {A} (f : A -> Z) (l : list A) :
  (sumZ ((fun a => f a mod TWO64) <$> l) mod TWO64
   = sumZ (f <$> l) mod TWO64)%Z.
Proof.
  unfold sumZ. induction l as [|a l IH]; cbn; [done|].
  rewrite Zplus_mod, IH, <- Zplus_mod. apply Zplus_mod_idemp_l.
Qed.

Lemma sumZ_indicator (whos : list N) (w0 : N) (v : Z) (g : N -> Z) :
  NoDup whos -> w0 ∈ whos ->
  sumZ ((fun w => (if decide (w = w0) then v else 0) + g w)%Z <$> whos)
    = (v + sumZ (g <$> whos))%Z.
Proof.
  unfold sumZ. induction 1 as [|w whos Hnin Hnd IH]; intros Hin; cbn.
  - by apply elem_of_nil in Hin.
  - apply elem_of_cons in Hin as [<- | Hin].
    + rewrite decide_True by done.
      assert (Hrest : foldr Z.add 0%Z
                ((fun w => (if decide (w = w0) then v else 0) + g w)%Z <$> whos)
              = foldr Z.add 0%Z (g <$> whos)).
      { f_equal. apply list_fmap_ext. intros i w Hw.
        rewrite decide_False; [done|]. intros ->.
        apply list_elem_of_lookup_2 in Hw. done. }
      rewrite Hrest. lia.
    + rewrite decide_False by (intros ->; done). rewrite IH by done. lia.
Qed.

(** The amounts logged for a campaign split by contributor. *)
Lemma amounts_split_by_contributor f id (whos : list N) evs :
  NoDup whos ->
  (forall who h, ContributionReceived id who h ∈ evs -> who ∈ whos) ->
  sumZ ((fun who => sumZ (plain f <$> omap (transferBy id who) evs)) <$> whos)
    = sumZ (plain f <$> omap (transferTo id) evs).
Proof.
  intros Hnd. induction evs as [|ev evs IH]; intros Hcov.
  - cbn. unfold sumZ. induction whos as [|w whos IHw]; cbn; [done|].
    rewrite IHw; [done | by apply NoDup_cons in Hnd as [_ ?] |].
    intros who h Hin. by apply elem_of_nil in Hin.
  - assert (IH' := IH (fun who h Hin => Hcov who h (list_elem_of_further _ _ _ Hin))).
    destruct ev as [ | id' w0 h | ]; [exact IH' | | exact IH'].
    destruct (N.eqb_spec id' id) as [->|Hid].
    + assert (Hw0 : w0 ∈ whos) by (apply (Hcov w0 h); left).
      assert (R : sumZ (plain f <$> omap (transferTo id)
                          (ContributionReceived id w0 h :: evs))
                  = (plain f h + sumZ (plain f <$> omap (transferTo id) evs))%Z).
      { unfold sumZ. cbn. by rewrite N.eqb_refl. }
      assert (L : forall who,
                sumZ (plain f <$> omap (transferBy id who)
                        (ContributionReceived id w0 h :: evs))
                = ((if decide (who = w0) then plain f h else 0)
                   + sumZ (plain f <$> omap (transferBy id who) evs))%Z).
      { intros who. unfold sumZ. cbn. rewrite N.eqb_refl. cbn.
        destruct (N.eqb_spec w0 who) as [->|Hw].
        - by rewrite decide_True.
        - rewrite decide_False by congruence. done. }
      rewrite R, <- IH', <- (sumZ_indicator whos w0 (plain f h) _ Hnd Hw0).
      f_equal. apply list_fmap_ext. intros i w _. apply L.
    + assert (R : omap (transferTo id) (ContributionReceived id' w0 h :: evs)
                  = omap (transferTo id) evs).
      { cbn. by destruct (N.eqb_spec id' id). }
      assert (L : forall who,
                omap (transferBy id who) (ContributionReceived id' w0 h :: evs)
                = omap (transferBy id who) evs).
      { intros who. cbn. by destruct (N.eqb_spec id' id). }
      rewrite R, <- IH'. f_equal. apply list_fmap_ext. intros i w _. by rewrite L.
Qed.

(** X9. The records add up to the total.  In a reachable state, summing
    the decrypted records of any duplicate-free list of contributors that
    contains everyone with a record in a campaign gives, modulo 2^64, what the
    running total of that campaign decrypts to: no contribution is counted
    twice or lost between the two ledgers. *)
Theorem records_sum_to_total :
  forall s id c whos,
    reachable this clamp s ->
    _campaigns s !! id = Some c ->
    NoDup whos ->
    (forall who, contributionAt s id who <> uninitialized -> who ∈ whos) ->
    decrypt (fhe s) (totalRaised c) = Some (recordsSum s id whos mod TWO64)%Z.
Proof.
  intros s id c whos Hr Hc Hnd Hcov.
  pose proof (reachable_consistent this clamp s Hr) as (_ & _ & _ & _ & Hacc).
  destruct Hacc as (Hl & Ht & Hrec).
  rewrite (Ht id c Hc). f_equal.
  assert (Hplain : forall who, plain (fhe s) (contributionAt s id who)
             = (sumZ (contributedBy s id who) mod TWO64)%Z).
  { intros who. specialize (Hrec id who). unfold contributionAt, contributedBy.
    destruct (_contributions s !! (id, who)) as [h|]; cbn.
    - destruct Hrec as [_ Hd]. by apply plain_decrypt.
    - by rewrite Hrec. }
  unfold recordsSum.
  rewrite (list_fmap_ext _ (fun who => sumZ (contributedBy s id who) mod TWO64)%Z
             whos) by (intros; apply Hplain).
  rewrite sumZ_mod_fmap. f_equal. unfold effectiveAmounts, contributedBy.
  symmetry. apply amounts_split_by_contributor; [done|].
  intros who h Hin. apply Hcov. specialize (Hrec id who). unfold contributionAt.
  destruct (_contributions s !! (id, who)) as [hr|] eqn:E; cbn.
  - destruct Hrec as [_ Hd]. intros ->. by rewrite decrypt_uninitialized_none in Hd.
  - exfalso. assert (Hm : h ∈ omap (transferBy id who) (events s)).
    { apply list_elem_of_omap. exists (ContributionReceived id who h).
      split; [done|]. by apply transferBy_Some. }
    rewrite Hrec in Hm. by apply elem_of_nil in Hm.
Qed.

End Lifecycle.

(** ** Grants *)

Section Grants.

Variable this : address.
Variable clamp : Z -> Z -> Z.

Lemma keepsGrants_ret {A} (a : A) : keepsGrants (ret a).
Proof. by intros s a' s' [= _ <-]. Qed.

Lemma keepsGrants_gets {A} (proj : State -> A) : keepsGrants (gets proj).
Proof. by intros s a' s' [= _ <-]. Qed.

Lemma keepsGrants_revert {A} e : keepsGrants (@revert A e).
Proof. by intros s a' s'. Qed.

Lemma keepsGrants_bind {A B} (m : Tx A) (k : A -> Tx B) :
  keepsGrants m -> (forall a, keepsGrants (k a)) -> keepsGrants (bind m k).
Proof.
  intros Hm Hk s b s'. unfold bind.
  destruct (m s) as [[a s1]|e] eqn:E; [|done].
  intros Hb. etrans; [by eapply Hm | by eapply Hk].
Qed.

Lemma keepsGrants_modify upd :
  (forall s, grants (fhe s) ⊆ grants (fhe (upd s))) -> keepsGrants (modify upd).
Proof. intros Hu s a s' [= _ <-]. apply Hu. Qed.

Lemma keepsGrants_liftFhe op :
  (forall f, grants f ⊆ grants (op f).2) -> keepsGrants (liftFhe op).
Proof.
  intros Hop s h s'. unfold liftFhe. specialize (Hop (fhe s)).
  destruct (op (fhe s)) as [h' f']. by intros [= _ <-].
Qed.

Lemma keepsGrants_fromExternal x : keepsGrants (FHE_fromExternal x).
Proof.
  intros s h s'. unfold FHE_fromExternal, ingestExternal.
  destruct (wellFormed x); [|done]. by intros [= _ <-].
Qed.

Lemma keepsGrants_allow h p : keepsGrants (FHE_allow h p).
Proof. apply keepsGrants_modify. intros s; cbn. set_solver. Qed.

Ltac keeps :=
  repeat first
    [ apply keepsGrants_ret
    | apply keepsGrants_gets
    | apply keepsGrants_revert
    | apply keepsGrants_allow
    | apply keepsGrants_fromExternal
    | apply keepsGrants_liftFhe; intros ?; reflexivity
    | apply keepsGrants_modify; intros ?; reflexivity
    | apply keepsGrants_bind; [|intros ?]
    | match goal with
      | |- keepsGrants (if ?b then _ else _) => destruct b
      end ].

Lemma keepsGrants_confidentialTransfer caller to amount :
  keepsGrants (confidentialTransfer clamp caller to amount).
Proof. unfold confidentialTransfer. keeps. Qed.

Lemma keepsGrants_confidentialTransferFrom caller from to x now :
  keepsGrants (confidentialTransferFrom clamp caller from to x now).
Proof. unfold confidentialTransferFrom. keeps. Qed.

Lemma keepsGrants_createCampaign sender now title target closes :
  keepsGrants (createCampaign this sender now title target closes).
Proof. unfold createCampaign. keeps. Qed.

Lemma keepsGrants_initialized value : keepsGrants (_initialized value).
Proof. unfold _initialized. keeps. Qed.

Lemma keepsGrants_contribute sender now x :
  keepsGrants (contribute this clamp sender now x).
Proof. unfold contribute, _initialized. keeps. Qed.

Lemma keepsGrants_finalizeCampaign sender now :
  keepsGrants (finalizeCampaign this clamp sender now).
Proof. unfold finalizeCampaign. keeps. Qed.

Lemma keepsGrants_mint to amount : keepsGrants (mint to amount).
Proof.
  unfold mint.
  apply keepsGrants_bind; [apply keepsGrants_liftFhe; intros ?; reflexivity | intros ?].
  apply keepsGrants_bind; [apply keepsGrants_gets | intros ?].
  apply keepsGrants_bind; [apply keepsGrants_liftFhe; intros ?; reflexivity | intros ?].
  apply keepsGrants_bind; [apply keepsGrants_modify; intros ?; reflexivity | intros ?].
  apply keepsGrants_allow.
Qed.

Lemma keepsGrants_exec sender now c : keepsGrants (exec this clamp sender now c).
Proof.
  destruct c; cbn [exec].
  - apply keepsGrants_createCampaign.
  - apply keepsGrants_bind; [apply keepsGrants_contribute | intros ?; apply keepsGrants_ret].
  - apply keepsGrants_bind;
      [apply keepsGrants_finalizeCampaign | intros ?; apply keepsGrants_ret].
  - apply keepsGrants_mint.
  - apply keepsGrants_modify. intros ?; reflexivity.
  - apply keepsGrants_bind; [apply keepsGrants_fromExternal | intros ?].
    apply keepsGrants_bind;
      [apply keepsGrants_confidentialTransfer | intros ?; apply keepsGrants_ret].
Qed.

Lemma grants_kept_step sender now c s :
  grants (fhe s) ⊆ grants (fhe (step this clamp sender now c s)).
Proof.
  unfold step. destruct (exec this clamp sender now c s) as [[u s']|e] eqn:Hx; [|done].
  by eapply keepsGrants_exec.
Qed.

Ltac in_grants :=
  solve [ repeat first
            [ apply elem_of_union_l, elem_of_singleton_2; reflexivity
            | apply elem_of_union_r ] ].

Ltac grants_kept H :=
  let z := fresh "z" in let Hz := fresh "Hz" in
  intros z Hz; repeat apply elem_of_union_r; apply H, Hz.

(** Rules that follow the grants through a transaction. *)
Lemma outcome_keeps {A} (m : Tx A) s E (P Q : A -> State -> Prop) :
  keepsGrants m ->
  outcome m s E P ->
  (forall a s', grants (fhe s) ⊆ grants (fhe s') -> P a s' -> Q a s') ->
  outcome m s E Q.
Proof.
  intros Hk Hm HQ. unfold outcome in *.
  destruct (m s) as [[a s']|e] eqn:Hx; [|done].
  apply HQ; [by eapply Hk | done].
Qed.

Lemma track_liftFhe op s E Q :
  (forall f, grants (op f).2 = grants f) ->
  (forall h f', grants f' = grants (fhe s) -> Q h (withFhe f' s)) ->
  outcome (liftFhe op) s E Q.
Proof.
  intros Hop HQ. unfold outcome, liftFhe. specialize (Hop (fhe s)).
  destruct (op (fhe s)) as [h f']. apply HQ. exact Hop.
Qed.

Lemma track_asEuint64 v s E Q :
  (forall h f', grants f' = grants (fhe s) -> Q h (withFhe f' s)) ->
  outcome (FHE_asEuint64 v) s E Q.
Proof. by apply track_liftFhe. Qed.

Lemma track_add a b s E Q :
  (forall h f', grants f' = grants (fhe s) -> Q h (withFhe f' s)) ->
  outcome (FHE_add a b) s E Q.
Proof. by apply track_liftFhe. Qed.

Lemma track_initialized value s E Q :
  (forall h f', grants f' = grants (fhe s) -> Q h (withFhe f' s)) ->
  outcome (_initialized value) s E Q.
Proof.
  intros HQ. unfold _initialized. destruct (isInitialized value).
  - apply outcome_ret. rewrite <- (withFhe_same s). by apply HQ.
  - by apply track_asEuint64.
Qed.

Lemma track_allow h p s E Q :
  (forall f', grants f' = {[ (h, p) ]} ∪ grants (fhe s) -> Q tt (withFhe f' s)) ->
  outcome (FHE_allow h p) s E Q.
Proof. intros HQ. apply outcome_modify. by apply HQ. Qed.

Lemma track_confidentialTransferFrom caller from to x now s Q :
  (forall h s', grants (fhe s) ⊆ grants (fhe s') -> sameLedger s s' -> Q h s') ->
  outcome (confidentialTransferFrom clamp caller from to x now) s (fun _ => True) Q.
Proof.
  intros HQ.
  eapply outcome_keeps; [apply keepsGrants_confidentialTransferFrom | |].
  - eapply outcome_weaken;
      [apply outcome_confidentialTransferFrom | done | intros h s' H; exact H].
  - intros h s' Hg (_ & _ & [Hl _] & _). by apply HQ.
Qed.

Lemma track_confidentialTransfer caller to amount s Q :
  (forall h s', grants (fhe s) ⊆ grants (fhe s') -> sameLedger s s' -> Q h s') ->
  outcome (confidentialTransfer clamp caller to amount) s (fun _ => True) Q.
Proof.
  intros HQ.
  eapply outcome_keeps; [apply keepsGrants_confidentialTransfer | |].
  - eapply outcome_weaken;
      [apply outcome_confidentialTransfer | done | intros h s' H; exact H].
  - intros h s' Hg ([Hl _] & _). by apply HQ.
Qed.

Lemma outcome_createCampaign_grants sender now title target closes s :
  outcome (createCampaign this sender now title target closes) s (fun _ => True)
    (fun _ s' =>
       exists goal total,
         _campaigns s' =
           <[_campaignCounter s + 1 := mkCampaign sender title closes goal total false]>
             (_campaigns s) /\
         _contributions s' = _contributions s /\
         grants (fhe s) ⊆ grants (fhe s') /\
         mayDecrypt s' goal this /\ mayDecrypt s' goal sender /\
         mayDecrypt s' total this /\ mayDecrypt s' total sender).
Proof.
  unfold createCampaign.
  apply outcome_bind, outcome_gets. cbn beta.
  destruct (negb (_activeCampaignId s =? 0)); [by apply outcome_revert|].
  destruct (_ || _); [by apply outcome_revert|].
  apply outcome_bind, outcome_gets. cbn beta.
  destruct (MAX_UINT256 <? _campaignCounter s + 1); [by apply outcome_revert|].
  apply outcome_bind, outcome_modify.
  apply outcome_bind, outcome_gets. cbn beta.
  apply outcome_bind, track_asEuint64. intros goal f1 G1. cbn in G1.
  apply outcome_bind, track_asEuint64. intros total f2 G2. cbn in G2.
  apply outcome_bind, track_allow. intros f3 G3. cbn in G3.
  apply outcome_bind, track_allow. intros f4 G4. cbn in G4.
  apply outcome_bind, track_allow. intros f5 G5. cbn in G5.
  apply outcome_bind, track_allow. intros f6 G6. cbn in G6.
  apply outcome_bind, outcome_modify.
  apply outcome_bind, outcome_modify.
  apply outcome_modify.
  exists goal, total. unfold mayDecrypt. cbn.
  split; [done|]. split; [done|].
  rewrite G6, G5, G4, G3, G2, G1.
  split; [intros z Hz; by repeat apply elem_of_union_r|].
  repeat split; in_grants.
Qed.

Lemma outcome_contribute_grants sender now x s :
  outcome (contribute this clamp sender now x) s (fun _ => True)
    (fun h s' =>
       let id := _activeCampaignId s in
       let c := campaignAt s id in
       exists transferred updatedTotal,
         id <> 0 /\
         _campaigns s' =
           <[id := mkCampaign (owner c) (name c) (deadline c) (targetAmount c)
                     updatedTotal (finalized c)]> (_campaigns s) /\
         _contributions s' = <[(id, sender) := h]> (_contributions s) /\
         events s' = events s ++ [ContributionReceived id sender transferred] /\
         grants (fhe s) ⊆ grants (fhe s') /\
         (mayDecrypt s' updatedTotal this /\ mayDecrypt s' updatedTotal (owner c) /\
          mayDecrypt s' updatedTotal sender) /\
         (mayDecrypt s' h this /\ mayDecrypt s' h sender /\
          mayDecrypt s' h (owner c)) /\
         (mayDecrypt s' transferred (owner c) /\ mayDecrypt s' transferred sender)).
Proof.
  unfold contribute.
  apply outcome_bind, outcome_gets. cbn beta.
  destruct (N.eqb_spec (_activeCampaignId s) 0) as [Ha|Ha]; [by apply outcome_revert|].
  apply outcome_bind, outcome_gets. cbn beta.
  destruct (_ || _); [by apply outcome_revert|].
  apply outcome_bind, track_confidentialTransferFrom.
  intros t s1 G0 (L1 & L2 & L3 & L4 & L5).
  apply outcome_bind, track_initialized. intros b f1 G1.
  apply outcome_bind, track_add. intros ut f2 G2. cbn in G2.
  apply outcome_bind, track_allow. intros f3 G3. cbn in G3.
  apply outcome_bind, track_allow. intros f4 G4. cbn in G4.
  apply outcome_bind, track_allow. intros f5 G5. cbn in G5.
  apply outcome_bind, outcome_modify.
  apply outcome_bind, outcome_gets. cbn beta.
  apply outcome_bind, track_initialized. intros b' f6 G6. cbn in G6.
  apply outcome_bind, track_add. intros uc f7 G7. cbn in G7.
  apply outcome_bind, track_allow. intros f8 G8. cbn in G8.
  apply outcome_bind, track_allow. intros f9 G9. cbn in G9.
  apply outcome_bind, track_allow. intros f10 G10. cbn in G10.
  apply outcome_bind, outcome_modify.
  apply outcome_bind, track_allow. intros f11 G11. cbn in G11.
  apply outcome_bind, track_allow. intros f12 G12. cbn in G12.
  apply outcome_bind, outcome_modify.
  apply outcome_ret.
  exists t, ut. unfold mayDecrypt, campaignAt. cbn. rewrite L3, L4, L5.
  split; [done|]. split; [done|]. split; [done|]. split; [done|].
  rewrite G12, G11, G10, G9, G8, G7, G6, G5, G4, G3, G2, G1.
  split; [grants_kept G0|].
  repeat split; in_grants.
Qed.

Lemma outcome_finalizeCampaign_grants sender now s :
  outcome (finalizeCampaign this clamp sender now) s (fun _ => True)
    (fun payout s' =>
       let id := _activeCampaignId s in
       let c := campaignAt s id in
       id <> 0 /\
       _campaigns s' =
         <[id := mkCampaign (owner c) (name c) (deadline c) (targetAmount c)
                   (totalRaised c) true]> (_campaigns s) /\
       _contributions s' = _contributions s /\
       events s' = events s ++ [CampaignFinalized id payout] /\
       grants (fhe s) ⊆ grants (fhe s') /\
       mayDecrypt s' payout this /\ mayDecrypt s' payout (owner c)).
Proof.
  unfold finalizeCampaign.
  apply outcome_bind, outcome_gets. cbn beta.
  destruct (N.eqb_spec (_activeCampaignId s) 0) as [Ha|Ha]; [by apply outcome_revert|].
  apply outcome_bind, outcome_gets. cbn beta.
  destruct (negb _); [by apply outcome_revert|].
  destruct (finalized _); [by apply outcome_revert|].
  apply outcome_bind, outcome_gets. cbn beta.
  apply outcome_bind, track_allow. intros f1 G1.
  apply outcome_bind, track_allow. intros f2 G2. cbn in G2.
  apply outcome_bind, track_confidentialTransfer.
  intros payout s1 G0 (L1 & L2 & L3 & L4 & L5). cbn in G0, L1, L2, L3, L4, L5.
  apply outcome_bind, track_allow. intros f3 G3.
  apply outcome_bind, track_allow. intros f4 G4. cbn in G4.
  apply outcome_bind, outcome_modify.
  apply outcome_bind, outcome_modify.
  apply outcome_bind, outcome_modify.
  apply outcome_ret.
  unfold mayDecrypt, campaignAt. cbn. rewrite L3, L4, L5.
  split; [done|]. split; [done|]. split; [done|]. split; [done|].
  rewrite G4, G3. rewrite G2, G1 in G0.
  split; [|split; in_grants].
  intros z Hz. repeat apply elem_of_union_r. apply G0. by repeat apply elem_of_union_r.
Qed.

Lemma granted_same s s' :
  _campaigns s' = _campaigns s -> _contributions s' = _contributions s ->
  grants (fhe s) ⊆ grants (fhe s') -> granted this s -> granted this s'.
Proof.
  intros Ec Ek Hg [Hc Hr]. unfold granted, mayDecrypt, campaignAt in *.
  rewrite Ec, Ek. split.
  - intros id c Hid. destruct (Hc id c Hid) as (A & B & C & D).
    repeat split; by apply Hg.
  - intros id who h Hid. destruct (Hr id who h Hid) as (A & B & C).
    repeat split; by apply Hg.
Qed.

Lemma granted_step sender now c s :
  reachable this clamp s -> granted this s ->
  granted this (step this clamp sender now c s).
Proof.
  intros Hr Hgr. pose proof (reachable_consistent this clamp s Hr) as Hcon.
  unfold step.
  destruct (exec this clamp sender now c s) as [[u s']|e] eqn:Hx; [|done].
  pose proof (keepsGrants_exec sender now c s u s' Hx) as Hsub.
  destruct c as [title target closes | x | | to amount | operator until | to x];
    cbn [exec] in Hx.
  - pose proof (outcome_ok _ _ _ _ _ _
      (outcome_createCampaign_grants sender now title target closes s) Hx)
      as (goal & total & Ec & Ek & _ & G1 & G2 & G3 & G4).
    destruct Hgr as [Hc Hrec].
    assert (Hna : ~ allocated s (_campaignCounter s + 1)) by (unfold allocated; lia).
    split.
    + intros id c. rewrite Ec, lookup_insert. case_decide as Eid.
      * by intros [= <-].
      * intros Hid. destruct (Hc id c Hid) as (A & B & C & D).
        unfold mayDecrypt in *. repeat split; by apply Hsub.
    + intros id who h. rewrite Ek. intros Hid.
      assert (Hne : id <> _campaignCounter s + 1).
      { intros ->. by rewrite (unallocated_no_record s _ who Hcon Hna) in Hid. }
      destruct (Hrec id who h Hid) as (A & B & C).
      unfold campaignAt in *. rewrite Ec, (lookup_insert_ne _ _ id) by done.
      unfold mayDecrypt in *. repeat split; by apply Hsub.
  - apply discard_result_ok in Hx as [h Hx].
    pose proof (outcome_ok _ _ _ _ _ _
      (outcome_contribute_grants sender now x s) Hx)
      as (t & ut & Ha & Ec & Ek & _ & _ & (T1 & T2 & _) & (R1 & R2 & R3) & _).
    cbn zeta in *.
    destruct (active_is_open this clamp s Hr Ha) as (Hst & _).
    destruct Hgr as [Hc Hrec].
    assert (Eo : forall id, owner (campaignAt s' id) = owner (campaignAt s id)).
    { intros id. unfold campaignAt at 1. rewrite Ec, lookup_insert.
      case_decide as Eid; [by subst id | done]. }
    split.
    + intros id c. rewrite Ec, lookup_insert. case_decide as Eid.
      * intros [= <-]. cbn. destruct (Hc _ _ Hst) as (A & B & _).
        unfold mayDecrypt in *. split; [by apply Hsub|]. split; [by apply Hsub|]. done.
      * intros Hid. destruct (Hc id c Hid) as (A & B & C & D).
        unfold mayDecrypt in *. repeat split; by apply Hsub.
    + intros id who h'. rewrite Ek, Eo, lookup_insert. case_decide as Eid.
      * intros [= <-]. by injection Eid as <- <-.
      * intros Hid. destruct (Hrec id who h' Hid) as (A & B & C).
        unfold mayDecrypt in *. repeat split; by apply Hsub.
  - apply discard_result_ok in Hx as [h Hx].
    pose proof (outcome_ok _ _ _ _ _ _
      (outcome_finalizeCampaign_grants sender now s) Hx)
      as (Ha & Ec & Ek & _).
    cbn zeta in *.
    destruct (active_is_open this clamp s Hr Ha) as (Hst & _).
    destruct Hgr as [Hc Hrec].
    assert (Eo : forall id, owner (campaignAt s' id) = owner (campaignAt s id)).
    { intros id. unfold campaignAt at 1. rewrite Ec, lookup_insert.
      case_decide as Eid; [by subst id | done]. }
    split.
    + intros id c. rewrite Ec, lookup_insert. case_decide as Eid.
      * intros [= <-]. cbn. destruct (Hc _ _ Hst) as (A & B & C & D).
        unfold mayDecrypt in *. repeat split; by apply Hsub.
      * intros Hid. destruct (Hc id c Hid) as (A & B & C & D).
        unfold mayDecrypt in *. repeat split; by apply Hsub.
    + intros id who h'. rewrite Ek, Eo. intros Hid.
      destruct (Hrec id who h' Hid) as (A & B & C).
      unfold mayDecrypt in *. repeat split; by apply Hsub.
  - pose proof (outcome_ok _ _ _ _ _ _ (outcome_mint to amount s) Hx)
      as [[(_ & _ & Ec & Ek & _) _] _].
    by eapply granted_same.
  - pose proof (outcome_ok _ _ _ _ _ _
      (outcome_setOperator sender operator until s) Hx)
      as [[(_ & _ & Ec & Ek & _) _] _].
    by eapply granted_same.
  - pose proof (outcome_ok _ _ _ _ _ _
      (outcome_tokenTransfer this clamp sender now to x s) Hx)
      as [[(_ & _ & Ec & Ek & _) _] _].
    by eapply granted_same.
Qed.

(** X10. Whoever is meant to read an encrypted value of the contract can:
    in every reachable state the contract and the owner of a campaign hold a
    grant on its target and on its running total, and the contract, the
    contributor and the owner of the campaign hold a grant on every stored
    contribution record. *)
Theorem stored_values_are_readable :
  forall s, reachable this clamp s -> granted this s.
Proof.
  induction 1 as [|s sender now c Hr IH _ _]; [|by apply granted_step].
  split; [intros id c | intros id who h]; cbn; by rewrite lookup_empty.
Qed.

(** X11. A successful contribute hands out the grants of one contribution:
    the updated record it returns is the one stored for the caller, readable
    by the contract, the caller and the campaign owner; the updated total of
    the campaign is readable by the contract, the owner and the caller; and
    the transferred amount named in the ContributionReceived event is readable
    by the owner and the caller.  No grant held before is lost. *)
Theorem contribute_grants_access :
  forall sender now x s h s',
    contribute this clamp sender now x s = Ok (h, s') ->
    let id := _activeCampaignId s in
    let c' := campaignAt s' id in
    owner c' = owner (campaignAt s id) /\
    _contributions s' !! (id, sender) = Some h /\
    (mayDecrypt s' h this /\ mayDecrypt s' h sender /\ mayDecrypt s' h (owner c')) /\
    (mayDecrypt s' (totalRaised c') this /\
     mayDecrypt s' (totalRaised c') (owner c') /\
     mayDecrypt s' (totalRaised c') sender) /\
    (exists transferred,
       last (events s') = Some (ContributionReceived id sender transferred) /\
       mayDecrypt s' transferred (owner c') /\
       mayDecrypt s' transferred sender) /\
    (forall h0 p, mayDecrypt s h0 p -> mayDecrypt s' h0 p).
Proof.
  intros sender now x s h s' Hx.
  pose proof (outcome_ok _ _ _ _ _ _
    (outcome_contribute_grants sender now x s) Hx)
    as (t & ut & Ha & Ec & Ek & Ee & Hsub & HT & HR & HX).
  cbn zeta in *.
  assert (Ecmp : campaignAt s' (_activeCampaignId s) =
                 mkCampaign (owner (campaignAt s (_activeCampaignId s)))
                   (name (campaignAt s (_activeCampaignId s)))
                   (deadline (campaignAt s (_activeCampaignId s)))
                   (targetAmount (campaignAt s (_activeCampaignId s))) ut
                   (finalized (campaignAt s (_activeCampaignId s)))).
  { unfold campaignAt at 1. by rewrite Ec, lookup_insert_eq. }
  rewrite Ecmp. cbn [owner totalRaised].
  split; [done|]. split; [by rewrite Ek, lookup_insert_eq|].
  split; [done|]. split; [done|].
  split; [exists t; split; [by rewrite Ee, last_snoc | done]|].
  intros h0 p Hm. by apply Hsub.
Qed.

(** X12. A successful finalizeCampaign lets the contract and the owner of
    the campaign read the payout it returns, which is the payout named in the
    CampaignFinalized event it logs, and takes no grant away. *)
Theorem finalizeCampaign_grants_access :
  forall sender now s payout s',
    finalizeCampaign this clamp sender now s = Ok (payout, s') ->
    let id := _activeCampaignId s in
    last (events s') = Some (CampaignFinalized id payout) /\
    owner (campaignAt s' id) = sender /\
    mayDecrypt s' payout this /\
    mayDecrypt s' payout sender /\
    (forall h0 p, mayDecrypt s h0 p -> mayDecrypt s' h0 p).
Proof.
  intros sender now s payout s' Hx.
  pose proof (outcome_ok _ _ _ _ _ _
    (outcome_finalizeCampaign_grants sender now s) Hx)
    as (Ha & Ec & Ek & Ee & Hsub & G1 & G2).
  pose proof (outcome_ok _ _ _ _ _ _
    (outcome_finalizeCampaign this clamp sender now s) Hx) as [(_ & Ho & _) _].
  cbn zeta in *. rewrite Ho in G2.
  split; [by rewrite Ee, last_snoc|].
  split; [unfold campaignAt at 1; by rewrite Ec, lookup_insert_eq|].
  split; [done|]. split; [done|].
  intros h0 p Hm. by apply Hsub.
Qed.

End Grants.

(** ** The further properties on the test scenarios *)

Lemma funded_reachable : reachable vault wholeOrNothing funded.
Proof.
  unfold funded, opened, play.
  repeat (apply reachable_run; [|repeat constructor; done]).
  apply reachable_genesis.
Defined.

Lemma shared_reachable : reachable vault wholeOrNothing shared.
Proof.
  unfold shared, opened, play.
  repeat (apply reachable_run; [|repeat constructor; done]).
  apply reachable_genesis.
Defined.

Lemma reopened_reachable : reachable vault wholeOrNothing reopened.
Proof.
  unfold reopened, play.
  apply reachable_run; [apply closed_reachable | repeat constructor; done].
Defined.


Lemma contribute_outcomes_witness :
  reachable vault wholeOrNothing funded /\
  (exists h s',
     contribute vault wholeOrNothing alice 13 (mkExternal 150 true) funded
       = Ok (h, s')) /\
  contribute vault wholeOrNothing alice 3610 (mkExternal 150 true) funded
    = Err CampaignClosed.
Proof.
  split; [apply funded_reachable|]. split.
  - destruct (contribute_outcomes vault wholeOrNothing funded alice 13
                (mkExternal 150 true) funded_reachable) as (_ & _ & [_ H]).
    apply H. clear H. repeat split; vm_compute; congruence.
  - destruct (contribute_outcomes vault wholeOrNothing funded alice 3610
                (mkExternal 150 true) funded_reachable) as (_ & [_ H] & _).
    apply H. clear H. repeat split; vm_compute; congruence.
Defined.

Lemma createCampaign_then_getCampaign_witness :
  reachable vault wholeOrNothing closed /\
  bob <> ADDRESS_ZERO /\
  createCampaign vault bob 20 "Second" 50 5000 closed = Ok (tt, reopened) /\
  activeCampaignId reopened = Ok (_campaignCounter closed + 1) /\
  effectiveAmounts reopened (_campaignCounter closed + 1) = [].
Proof.
  assert (Hx : createCampaign vault bob 20 "Second" 50 5000 closed = Ok (tt, reopened))
    by (by vm_compute).
  split; [apply closed_reachable|]. split; [done|]. split; [exact Hx|].
  destruct (createCampaign_then_getCampaign vault wholeOrNothing closed bob 20
              "Second" 50%Z 5000 reopened closed_reachable)
    as (Ha & _ & _ & He); [done | exact Hx |].
  split; [exact Ha | exact He].
Defined.

Lemma after_finalizeCampaign_witness :
  reachable vault wholeOrNothing raised /\
  exists payout s',
    finalizeCampaign vault wholeOrNothing creator 15 raised = Ok (payout, s') /\
    finalizeCampaign vault wholeOrNothing creator 16 s' = Err CampaignNotFound /\
    contribute vault wholeOrNothing alice 16 (mkExternal 150 true) s'
      = Err CampaignNotFound.
Proof.
  split; [apply raised_reachable|].
  destruct (finalizeCampaign vault wholeOrNothing creator 15 raised)
    as [[payout s']|e] eqn:Hx; [|by vm_compute in Hx].
  exists payout, s'. split; [done|].
  destruct (after_finalizeCampaign vault wholeOrNothing raised creator 15 payout s'
              raised_reachable Hx) as (Hf & Hc & _).
  split; [apply Hf | apply Hc].
Defined.

Lemma campaign_metadata_is_permanent_witness :
  reachable vault wholeOrNothing raised /\
  _campaigns raised !! 1 = Some (campaignAt raised 1) /\
  exists cmp',
    _campaigns closed !! 1 = Some cmp' /\
    owner cmp' = owner (campaignAt raised 1) /\
    targetAmount cmp' = targetAmount (campaignAt raised 1).
Proof.
  split; [apply raised_reachable|]. split; [by vm_compute|].
  destruct (campaign_metadata_is_permanent vault wholeOrNothing
              [(creator, 15, FinalizeCampaign)] raised 1 (campaignAt raised 1)
              raised_reachable)
    as (cmp' & Hc & Ho & _ & _ & Ht & _).
  - repeat constructor; done.
  - by vm_compute.
  - exists cmp'. split; [exact Hc|]. split; [exact Ho | exact Ht].
Defined.

Lemma campaigns_run_in_turn_witness :
  reachable vault wholeOrNothing reopened /\
  idsUpTo (_campaignCounter reopened) = [1; 2] /\
  omap createdId (events reopened) = idsUpTo (_campaignCounter reopened) /\
  (_activeCampaignId reopened = 0 \/
   _activeCampaignId reopened = _campaignCounter reopened).
Proof.
  split; [apply reopened_reachable|]. split; [by vm_compute|].
  destruct (campaigns_run_in_turn vault wholeOrNothing reopened reopened_reachable)
    as (Hc & _ & Ha & _).
  split; [exact Hc | exact Ha].
Defined.

Lemma contribute_moves_one_amount_witness :
  reachable vault wholeOrNothing funded /\
  alice <> vault /\
  exists h s',
    contribute vault wholeOrNothing alice 13 (mkExternal 150 true) funded
      = Ok (h, s') /\
    exists transferred e,
      decrypt (fhe s') transferred = Some e /\
      decrypt (fhe s') (balanceOf (cusdt s') alice)
        = Some ((plain (fhe funded) (balanceOf (cusdt funded) alice) - e)
                mod TWO64)%Z /\
      decrypt (fhe s') (balanceOf (cusdt s') vault)
        = Some ((plain (fhe funded) (balanceOf (cusdt funded) vault) + e)
                mod TWO64)%Z.
Proof.
  split; [apply funded_reachable|]. split; [done|].
  destruct (contribute vault wholeOrNothing alice 13 (mkExternal 150 true) funded)
    as [[h s']|err] eqn:Hx; [|by vm_compute in Hx].
  exists h, s'. split; [done|].
  destruct (contribute_moves_one_amount vault wholeOrNothing funded alice 13
              (mkExternal 150 true) h s' funded_reachable)
    as (t & e & _ & Hd & _ & Hs & Hv & _); [done | exact Hx |].
  exists t, e. split; [exact Hd|]. split; [exact Hs | exact Hv].
Defined.

Lemma shared_contributions :
  _contributions shared
    = <[(1, bob) := contributionAt shared 1 bob]>
        (<[(1, alice) := contributionAt shared 1 alice]> ∅).
Proof. by vm_compute. Defined.

Lemma records_sum_to_total_witness :
  reachable vault wholeOrNothing shared /\
  _campaigns shared !! 1 = Some (campaignAt shared 1) /\
  NoDup [alice; bob] /\
  recordsSum shared 1 [alice; bob] = 200%Z /\
  decrypt (fhe shared) (totalRaised (campaignAt shared 1))
    = Some (recordsSum shared 1 [alice; bob] mod TWO64)%Z.
Proof.
  split; [apply shared_reachable|]. split; [by vm_compute|].
  assert (Hnd : NoDup [alice; bob]).
  { apply NoDup_cons. split; [by intros ?%list_elem_of_singleton|].
    apply NoDup_singleton. }
  split; [exact Hnd|]. split; [by vm_compute|].
  apply (records_sum_to_total vault wholeOrNothing shared 1 (campaignAt shared 1)
           [alice; bob] shared_reachable); [by vm_compute | exact Hnd |].
  intros who Hrec.
  destruct (decide (who = bob)) as [->|Hb]; [right; left|].
  destruct (decide (who = alice)) as [->|Ha]; [left|].
  exfalso. apply Hrec. unfold contributionAt at 1.
  rewrite shared_contributions.
  rewrite (lookup_insert_ne _ (1, bob) (1, who)) by congruence.
  rewrite (lookup_insert_ne _ (1, alice) (1, who)) by congruence.
  by rewrite lookup_empty.
Defined.

Lemma stored_values_are_readable_witness :
  reachable vault wholeOrNothing shared /\ granted vault shared.
Proof.
  split; [apply shared_reachable|].
  apply (stored_values_are_readable vault wholeOrNothing shared shared_reachable).
Defined.

Lemma contribute_grants_access_witness :
  exists h s',
    contribute vault wholeOrNothing alice 13 (mkExternal 150 true) funded
      = Ok (h, s') /\
    _contributions s' !! (_activeCampaignId funded, alice) = Some h /\
    mayDecrypt s' h vault /\ mayDecrypt s' h alice /\
    mayDecrypt s' h (owner (campaignAt s' (_activeCampaignId funded))).
Proof.
  destruct (contribute vault wholeOrNothing alice 13 (mkExternal 150 true) funded)
    as [[h s']|err] eqn:Hx; [|by vm_compute in Hx].
  exists h, s'. split; [done|].
  destruct (contribute_grants_access vault wholeOrNothing alice 13
              (mkExternal 150 true) funded h s' Hx) as (_ & Hk & Hr & _).
  split; [exact Hk | exact Hr].
Defined.

Lemma finalizeCampaign_grants_access_witness :
  exists payout s',
    finalizeCampaign vault wholeOrNothing creator 15 raised = Ok (payout, s') /\
    last (events s') = Some (CampaignFinalized (_activeCampaignId raised) payout) /\
    mayDecrypt s' payout vault /\ mayDecrypt s' payout creator.
Proof.
  destruct (finalizeCampaign vault wholeOrNothing creator 15 raised)
    as [[payout s']|e] eqn:Hx; [|by vm_compute in Hx].
  exists payout, s'. split; [done|].
  destruct (finalizeCampaign_grants_access vault wholeOrNothing creator 15 raised
              payout s' Hx) as (He & _ & Hv & Hc & _).
  split; [exact He|]. split; [exact Hv | exact Hc].
Defined.
